(** * hubot-plan: the Event aggregate of lib/event.js

    A shallow embedding of the classes [Proposal] and [Event] and the
    properties of the negotiation state machine: proposal slots, votes,
    the leader marker, finalization, the earliest/latest caches and the
    serialized form.

    Conventions of the embedding.
    - A JavaScript [Set] of invitee identifiers is a [gset string]; the
      iteration order of the set is not modelled.
    - The array [this.proposals] is a [list (option Proposal)]: [None] is a
      hole left by [delete this.proposals[index]].  The length of the list
      is the [length] of the array, holes included.
    - The Proposal objects live in the slots of the array.  Every slot
      receives its own object ([new Proposal] in [proposeDate]) and objects
      never move, so a reference to one of them ([this.earliest],
      [this.latest]) is the index of its slot and [===] between two such
      references is equality of slot indices.
    - A method that can throw is a function from the event to an outcome
      and the event as the call leaves it: what was mutated before a
      [throw] stays mutated.
    - A moment-timezone value is its instant ([valueOf], milliseconds) and
      the name of its zone ([tz]). *)

From stdpp Require Import gmap strings list.

(** ** moment-timezone values *)

Record Moment : Type := mkMoment { valueOf : Z; tz : string }.

Definition isBefore (a b : Moment) : bool := (valueOf a <? valueOf b)%Z.
Definition isAfter (a b : Moment) : bool := (valueOf b <? valueOf a)%Z.

#[global] Instance Moment_eq_dec : EqDecision Moment.
Proof. solve_decision. Defined.

(** [moment.tz(ms, zone)] *)
Definition moment_tz (ms : Z) (zone : string) : Moment := mkMoment ms zone.

(** ** Errors and the outcome of a call *)

(** The errors are named after their builders in [./errors];
    [FinalizedEventError] is thrown both by [proposeDate] and by
    [finalize].  [TypeError] is the engine's error for a method call on
    [undefined]. *)
Inductive Error : Type :=
| InvalidProposalError
| FinalizedEventError
| UnfinalizedEventError
| TypeError.

Inductive outcome (A : Type) : Type :=
| Return (a : A)
| Throw (err : Error).
Arguments Return {A} a.
Arguments Throw {A} err.

(** ** class Proposal *)

Record Proposal : Type := mkProposal {
  ts : Moment;
  accepted : gset string;
  leading : bool
}.

#[global] Instance Proposal_eq_dec : EqDecision Proposal.
Proof. solve_decision. Defined.

Module ProposalM.

Definition new (t : Moment) : Proposal := mkProposal t ∅ false.

Definition date (p : Proposal) : Moment := ts p.
Definition yesCount (p : Proposal) : nat := size (accepted p).
Definition isLeading (p : Proposal) : bool := leading p.
Definition yes (uid : string) (p : Proposal) : Proposal :=
  mkProposal (ts p) ({[uid]} ∪ accepted p) (leading p).
Definition no (uid : string) (p : Proposal) : Proposal :=
  mkProposal (ts p) (accepted p ∖ {[uid]}) (leading p).
Definition isAttending (uid : string) (p : Proposal) : bool :=
  bool_decide (uid ∈ accepted p).
Definition getAttendees (p : Proposal) : list string := elements (accepted p).
Definition markLeader (p : Proposal) : Proposal :=
  mkProposal (ts p) (accepted p) true.
Definition clearLeader (p : Proposal) : Proposal :=
  mkProposal (ts p) (accepted p) false.

Record Payload : Type := mkPayload {
  p_ts : Z;
  p_zone : string;
  p_accepted : list string
}.

Definition serialize (p : Proposal) : Payload :=
  mkPayload (valueOf (ts p)) (tz (ts p)) (elements (accepted p)).

Definition deserialize (payload : Payload) : Proposal :=
  mkProposal (moment_tz (p_ts payload) (p_zone payload))
             (list_to_set (p_accepted payload))
             false.

End ProposalM.

Import ProposalM.

(** ** class Event *)

(** A reference to a Proposal object held by the event: its slot. *)
Abbreviation ref := nat.

Record Event : Type := mkEvent {
  id : string;
  name : string;
  proposals : list (option Proposal);
  invitees : gset string;
  responses : gset string;
  finalized : option nat;
  earliest : option ref;
  latest : option ref
}.

#[global] Instance Event_eq_dec : EqDecision Event.
Proof. solve_decision. Defined.

Definition M (A : Type) : Type := Event → outcome A * Event.

Definition ret {A} (a : A) : M A := λ e, (Return a, e).
Definition bind {A B} (k : A → M B) (m : M A) : M B :=
  λ e, match m e with
       | (Return a, e') => k a e'
       | (Throw err, e') => (Throw err, e')
       end.
Definition modify (f : Event → Event) : M unit := λ e, (Return (), f e).

#[global] Instance M_ret : MRet M := @ret.
#[global] Instance M_bind : MBind M := @bind.

(** Field updates. *)
Definition set_name (v : string) (e : Event) : Event :=
  mkEvent (id e) v (proposals e) (invitees e) (responses e)
          (finalized e) (earliest e) (latest e).
Definition set_proposals (v : list (option Proposal)) (e : Event) : Event :=
  mkEvent (id e) (name e) v (invitees e) (responses e)
          (finalized e) (earliest e) (latest e).
Definition set_invitees (v : gset string) (e : Event) : Event :=
  mkEvent (id e) (name e) (proposals e) v (responses e)
          (finalized e) (earliest e) (latest e).
Definition set_responses (v : gset string) (e : Event) : Event :=
  mkEvent (id e) (name e) (proposals e) (invitees e) v
          (finalized e) (earliest e) (latest e).
Definition set_finalized (v : option nat) (e : Event) : Event :=
  mkEvent (id e) (name e) (proposals e) (invitees e) (responses e)
          v (earliest e) (latest e).
Definition set_earliest (v : option ref) (e : Event) : Event :=
  mkEvent (id e) (name e) (proposals e) (invitees e) (responses e)
          (finalized e) v (latest e).
Definition set_latest (v : option ref) (e : Event) : Event :=
  mkEvent (id e) (name e) (proposals e) (invitees e) (responses e)
          (finalized e) (earliest e) v.

(** [arr[index]]: [None] stands for [undefined], a hole or an index past
    the end. *)
Definition slot (ps : list (option Proposal)) (index : nat) : option Proposal :=
  mjoin (ps !! index).

(** [delete arr[index]] leaves a hole and keeps the length; past the end
    it does nothing. *)
Definition delete_slot (index : nat) (ps : list (option Proposal))
  : list (option Proposal) := <[index := None]> ps.

(** The date of the object behind a reference.  The event only ever holds
    references to live slots ([cache_inv] below: [unpropose] re-targets
    [earliest] and [latest] before it empties a slot), so the [None] of an
    emptied slot does not arise for them. *)
Definition ref_date (ps : list (option Proposal)) (r : ref) : option Moment :=
  date <$> slot ps r.

(** [r === arr[index]] for [r] null or a reference: never true when
    [arr[index]] is [undefined]. *)
Definition same_object (ps : list (option Proposal)) (r : option ref)
    (index : nat) : bool :=
  match r, slot ps index with
  | Some j, Some _ => bool_decide (j = index)
  | _, _ => false
  end.

(** [arr.reduce(f, init)]: the callback sees the elements that are
    present, with their indices, in increasing order; holes are skipped. *)
Fixpoint reduce_from {A} (f : A → Proposal → nat → A) (ind : nat)
    (ps : list (option Proposal)) (acc : A) : A :=
  match ps with
  | [] => acc
  | None :: rest => reduce_from f (S ind) rest acc
  | Some p :: rest => reduce_from f (S ind) rest (f acc p ind)
  end.
Definition reduce {A} (f : A → Proposal → nat → A) (init : A)
    (ps : list (option Proposal)) : A := reduce_from f 0 ps init.

Module EventM.

Definition new (eid ename : string) : Event :=
  mkEvent eid ename [] ∅ ∅ None None None.

Definition getID (e : Event) : string := id e.
Definition setName (v : string) (e : Event) : Event := set_name v e.
Definition getName (e : Event) : string := name e.

Definition isFinalized (e : Event) : bool :=
  match finalized e with Some _ => true | None => false end.

(** [!this.earliest || p.date().isBefore(this.earliest.date())] *)
Definition earlier_than_cached (ps : list (option Proposal)) (p : Proposal)
    (r : option ref) : bool :=
  match r ≫= ref_date ps with
  | None => true
  | Some d => isBefore (date p) d
  end.
Definition later_than_cached (ps : list (option Proposal)) (p : Proposal)
    (r : option ref) : bool :=
  match r ≫= ref_date ps with
  | None => true
  | Some d => isAfter (date p) d
  end.

Definition proposeDate (t : Moment) : M nat := λ e,
  if isFinalized e then (Throw FinalizedEventError, e)
  else
    let p := ProposalM.new t in
    let here : ref := length (proposals e) in
    let ps := proposals e ++ [Some p] in
    let e1 := set_proposals ps e in
    let e2 := if earlier_than_cached ps p (earliest e1)
              then set_earliest (Some here) e1 else e1 in
    let e3 := if later_than_cached ps p (latest e2)
              then set_latest (Some here) e2 else e2 in
    (Return (length (proposals e3) - 1), e3).

(** The callbacks of the two [reduce] calls of [unpropose]; the
    accumulator is a reference together with the object it points to. *)
Definition pick_min (index : nat) (min : option (ref * Proposal))
    (p : Proposal) (ind : nat) : option (ref * Proposal) :=
  if bool_decide (ind = index) then min
  else match min with
       | None => Some (ind, p)
       | Some (_, q) => if isBefore (date p) (date q) then Some (ind, p) else min
       end.
Definition pick_max (index : nat) (max : option (ref * Proposal))
    (p : Proposal) (ind : nat) : option (ref * Proposal) :=
  if bool_decide (ind = index) then max
  else match max with
       | None => Some (ind, p)
       | Some (_, q) => if isAfter (date p) (date q) then Some (ind, p) else max
       end.

Definition unpropose (index : nat) (e : Event) : Event :=
  let e1 := if same_object (proposals e) (earliest e) index
            then set_earliest (fst <$> reduce (pick_min index) None (proposals e)) e
            else e in
  let e2 := if same_object (proposals e1) (latest e1) index
            then set_latest (fst <$> reduce (pick_max index) None (proposals e1)) e1
            else e1 in
  let e3 := set_proposals (delete_slot index (proposals e2)) e2 in
  if bool_decide (finalized e3 = Some index) then set_finalized None e3 else e3.

(** [Object.keys(this.proposals)], parsed *)
Definition proposalKeys (e : Event) : list nat :=
  reduce (λ acc _ ind, acc ++ [ind]) [] (proposals e).

Definition proposal (index : nat) : M Proposal := λ e,
  match slot (proposals e) index with
  | None => (Throw InvalidProposalError, e)
  | Some p => (Return p, e)
  end.

(** A method of the Proposal in slot [index] that mutates it in place. *)
Definition update_proposal (index : nat) (f : Proposal → Proposal) : M unit :=
  modify (λ e, set_proposals (<[index := f <$> slot (proposals e) index]> (proposals e)) e).

Definition invite (uid : string) (e : Event) : Event :=
  set_invitees ({[uid]} ∪ invitees e) e.
Definition uninvite (uid : string) (e : Event) : Event :=
  set_invitees (invitees e ∖ {[uid]}) e.
Definition getInvitees (e : Event) : list string := elements (invitees e).
Definition responded (uid : string) (e : Event) : Event :=
  set_responses ({[uid]} ∪ responses e) e.

(** First loop of [remarkLeader]: [for (const proposal of this.proposals)]
    visits every index below the length; at a hole [proposal] is
    [undefined] and [proposal.yesCount()] throws. *)
Fixpoint leading_count (ps : list (option Proposal)) (leadingCount : nat)
  : outcome nat :=
  match ps with
  | [] => Return leadingCount
  | None :: _ => Throw TypeError
  | Some p :: rest =>
      leading_count rest
        (if leadingCount <? yesCount p then yesCount p else leadingCount)
  end.

(** Second loop: marks or clears the proposals in order, up to the first
    hole. *)
Fixpoint mark_leaders (leadingCount : nat) (ps : list (option Proposal))
  : outcome unit * list (option Proposal) :=
  match ps with
  | [] => (Return (), [])
  | None :: rest => (Throw TypeError, None :: rest)
  | Some p :: rest =>
      let p' := if yesCount p =? leadingCount then markLeader p else clearLeader p in
      let '(o, rest') := mark_leaders leadingCount rest in
      (o, Some p' :: rest')
  end.

Definition remarkLeader : M unit := λ e,
  match leading_count (proposals e) 2 with
  | Throw err => (Throw err, e)
  | Return leadingCount =>
      let '(o, ps) := mark_leaders leadingCount (proposals e) in
      (o, set_proposals ps e)
  end.

Definition acceptProposal (uid : string) (proposalIndex : nat) : M unit :=
  modify (invite uid) ;;
  modify (responded uid) ;;
  _ ← proposal proposalIndex;
  update_proposal proposalIndex (yes uid) ;;
  remarkLeader.

Definition rejectProposal (uid : string) (proposalIndex : nat) : M unit :=
  modify (responded uid) ;;
  _ ← proposal proposalIndex;
  update_proposal proposalIndex (no uid) ;;
  remarkLeader.

Definition finalize (index : nat) : M unit := λ e,
  match slot (proposals e) index with
  | None => (Throw InvalidProposalError, e)
  | Some _ =>
      if isFinalized e then (Throw FinalizedEventError, e)
      else (Return (), set_finalized (Some index) e)
  end.

Definition finalProposal : M Proposal := λ e,
  match finalized e with
  | None => (Throw UnfinalizedEventError, e)
  | Some index => proposal index e
  end.

Definition unfinalize (e : Event) : Event := set_finalized None e.

Definition earliestComparisonDate : M (option Moment) := λ e,
  if isFinalized e then (p ← finalProposal; ret (Some (date p))) e
  else match earliest e ≫= ref_date (proposals e) with
       | Some d => (Return (Some d), e)
       | None => (Return None, e)
       end.

Definition latestComparisonDate : M (option Moment) := λ e,
  if isFinalized e then (p ← finalProposal; ret (Some (date p))) e
  else match latest e ≫= ref_date (proposals e) with
       | Some d => (Return (Some d), e)
       | None => (Return None, e)
       end.

Record Payload : Type := mkPayload {
  pl_id : string;
  pl_name : string;
  pl_invitees : list string;
  pl_responses : list string;
  pl_finalized : option nat;
  pl_proposals : list (option ProposalM.Payload)
}.

(** [Array.prototype.map] keeps the holes of the array. *)
Definition serialize (e : Event) : Payload :=
  mkPayload (id e) (name e) (elements (invitees e)) (elements (responses e))
            (finalized e) (fmap (M:=option) ProposalM.serialize <$> proposals e).

Definition deserialize (payload : Payload) : Event :=
  mkEvent (pl_id payload) (pl_name payload)
          (fmap (M:=option) ProposalM.deserialize <$> pl_proposals payload)
          (list_to_set (pl_invitees payload))
          (list_to_set (pl_responses payload))
          (pl_finalized payload) None None.

End EventM.

Import EventM.

(** ** Sequences of calls *)

(** The calls a client makes on an event; [OpYes] and [OpNo] are
    [evt.proposal(index).yes(uid)] and [evt.proposal(index).no(uid)], the
    direct toggling the tests use on the final proposal. *)
Inductive Op : Type :=
| OpSetName (v : string)
| OpProposeDate (t : Moment)
| OpUnpropose (index : nat)
| OpInvite (uid : string)
| OpUninvite (uid : string)
| OpAccept (uid : string) (index : nat)
| OpReject (uid : string) (index : nat)
| OpResponded (uid : string)
| OpFinalize (index : nat)
| OpUnfinalize
| OpYes (index : nat) (uid : string)
| OpNo (index : nat) (uid : string).

Inductive Value : Type :=
| VUndefined
| VIndex (index : nat).

Definition exec (op : Op) : M Value :=
  match op with
  | OpSetName v => modify (setName v) ;; mret VUndefined
  | OpProposeDate t => index ← proposeDate t; mret (VIndex index)
  | OpUnpropose index => modify (unpropose index) ;; mret VUndefined
  | OpInvite uid => modify (invite uid) ;; mret VUndefined
  | OpUninvite uid => modify (uninvite uid) ;; mret VUndefined
  | OpAccept uid index => acceptProposal uid index ;; mret VUndefined
  | OpReject uid index => rejectProposal uid index ;; mret VUndefined
  | OpResponded uid => modify (responded uid) ;; mret VUndefined
  | OpFinalize index => finalize index ;; mret VUndefined
  | OpUnfinalize => modify unfinalize ;; mret VUndefined
  | OpYes index uid =>
      _ ← proposal index; update_proposal index (yes uid) ;; mret VUndefined
  | OpNo index uid =>
      _ ← proposal index; update_proposal index (no uid) ;; mret VUndefined
  end.

(** The client catches what a call throws and goes on with the event as
    the call left it; [run] collects the outcomes. *)
Fixpoint run (ops : list Op) (e : Event) : list (outcome Value) * Event :=
  match ops with
  | [] => ([], e)
  | op :: rest =>
      let '(o, e1) := exec op e in
      let '(os, e2) := run rest e1 in
      (o :: os, e2)
  end.

Definition after (ops : list Op) (e : Event) : Event := (run ops e).2.
Definition outcomes (ops : list Op) (e : Event) : list (outcome Value) :=
  (run ops e).1.

(** ** Vocabulary of the statements *)

(** Index [i] is a live proposal of the event. *)
Definition live (e : Event) (i : nat) : Prop := is_Some (slot (proposals e) i).

(** The proposals that are present, in index order. *)
Definition live_proposals (e : Event) : list Proposal := omap (λ o, o) (proposals e).

(** The event has a removed slot. *)
Definition has_hole (e : Event) : Prop := None ∈ proposals e.

(** The largest [yesCount()] of a live proposal (0 when there is none). *)
Definition max_yes (e : Event) : nat := max_list (yesCount <$> live_proposals e).

(** [r] is the least (greatest) element of [l], or absent when [l] is
    empty. *)
Definition is_min_of (l : list Z) (r : option Z) : Prop :=
  match r with
  | None => l = []
  | Some m => m ∈ l ∧ ∀ x, x ∈ l → (m ≤ x)%Z
  end.
Definition is_max_of (l : list Z) (r : option Z) : Prop :=
  match r with
  | None => l = []
  | Some m => m ∈ l ∧ ∀ x, x ∈ l → (x ≤ m)%Z
  end.

(** The instants of the live proposals. *)
Definition live_instants (e : Event) : list Z :=
  (λ p, valueOf (date p)) <$> live_proposals e.

(** ** The scenarios of test/event.test.js *)

Module Scenario.

Local Open Scope string_scope.

Definition tomorrow : Moment := mkMoment 1511067600000 "America/New_York".
Definition nextWeek : Moment := mkMoment 1511586000000 "America/New_York".
Definition nextMonth : Moment := mkMoment 1513400400000 "America/New_York".

Definition proposed : Event :=
  after [OpProposeDate tomorrow] (EventM.new "AAA" "Party at Frey's House").

Definition voted : Event :=
  after [OpInvite "frey"; OpInvite "fenris"; OpInvite "reostra";
         OpProposeDate nextWeek; OpProposeDate nextMonth;
         OpAccept "frey" 0; OpAccept "fenris" 0; OpAccept "fenris" 1;
         OpAccept "reostra" 0; OpAccept "reostra" 1; OpAccept "reostra" 2]
        proposed.

End Scenario.

#[global] Instance live_dec e i : Decision (live e i).
Proof. unfold live. apply _. Defined.

#[global] Instance has_hole_dec e : Decision (has_hole e).
Proof. unfold has_hole. apply _. Defined.

(** ** remarkLeader *)

(** What the second loop does to one proposal. *)
Definition remark (leadingCount : nat) (p : Proposal) : Proposal :=
  if yesCount p =? leadingCount then markLeader p else clearLeader p.

(** The marker as [remarkLeader] leaves it: a live proposal is leading
    exactly when it has the most votes of the live proposals and these are
    at least two. *)
Definition leaders_marked (e : Event) : Prop :=
  ∀ j p, slot (proposals e) j = Some p →
    (isLeading p = true ↔ yesCount p = max_yes e ∧ 2 ≤ max_yes e).

(** The marker as the specification words it: the most votes, and these
    strictly more than two. *)
Definition leaders_above_two (e : Event) : Prop :=
  ∀ j p, slot (proposals e) j = Some p →
    (isLeading p = true ↔ yesCount p = max_yes e ∧ 2 < max_yes e).

Module SpecScenario.

Local Open Scope string_scope.

(** Section 8 of the specification: three dates; A and B accept 0, B and
    C accept 1, C accepts 2. *)
Definition open : Event :=
  after [OpProposeDate Scenario.tomorrow; OpProposeDate Scenario.nextWeek;
         OpProposeDate Scenario.nextMonth;
         OpInvite "A"; OpInvite "B"; OpInvite "C";
         OpAccept "A" 0; OpAccept "B" 0; OpAccept "B" 1; OpAccept "C" 1]
        (EventM.new "CCC" "Scenario").

Definition tallied : Event := after [OpAccept "C" 2] open.

(** Two dates, the first one removed. *)
Definition holed : Event :=
  after [OpProposeDate Scenario.nextWeek; OpUnpropose 0] Scenario.proposed.

End SpecScenario.

(** ** The earliest and latest caches *)

(** The two caches are maintained by the same code up to the comparison:
    [isBefore] for [earliest], [isAfter] for [latest]. *)
Definition pick (cmp : Moment → Moment → bool) (index : nat)
    (best : option (ref * Proposal)) (p : Proposal) (ind : nat)
  : option (ref * Proposal) :=
  if bool_decide (ind = index) then best
  else match best with
       | None => Some (ind, p)
       | Some (_, q) => if cmp (date p) (date q) then Some (ind, p) else best
       end.

Definition beats_cached (cmp : Moment → Moment → bool)
    (ps : list (option Proposal)) (p : Proposal) (r : option ref) : bool :=
  match r ≫= ref_date ps with
  | None => true
  | Some d => cmp (date p) d
  end.

(** [r] refers to a live proposal whose instant is [R]-related to the
    instant of every live proposal; it is null when none is live. *)
Definition ref_is_best (R : Z → Z → Prop) (ps : list (option Proposal))
    (r : option ref) : Prop :=
  match r with
  | None => ∀ j, ref_date ps j = None
  | Some k => ∃ d, ref_date ps k = Some d
                ∧ ∀ j d', ref_date ps j = Some d' → R (valueOf d) (valueOf d')
  end.

(** The accumulator of the [reduce] of [unpropose] after the indices below
    [n]. *)
Definition best_below (R : Z → Z → Prop) (index : nat)
    (ps : list (option Proposal)) (n : nat) (acc : option (ref * Proposal)) : Prop :=
  match acc with
  | None => ∀ j, j < n → j ≠ index → slot ps j = None
  | Some (k, q) =>
      k ≠ index ∧ slot ps k = Some q
      ∧ ∀ j q', j < n → j ≠ index → slot ps j = Some q' →
          R (valueOf (date q)) (valueOf (date q'))
  end.

(** The invariant of the event: [earliest] and [latest] refer to live
    proposals with the least and the greatest instant, and the finalized
    index is a live proposal. *)
Definition cache_inv (e : Event) : Prop :=
  ref_is_best Z.le (proposals e) (earliest e)
  ∧ ref_is_best Z.ge (proposals e) (latest e)
  ∧ ∀ f, finalized e = Some f → live e f.

(** Two arrays with the same length, the same holes and the same dates. *)
Definition dates_agree (ps ps' : list (option Proposal)) : Prop :=
  length ps' = length ps ∧ ∀ j, ref_date ps' j = ref_date ps j.

(** A call that neither adds nor removes a proposal and leaves the caches
    and the finalized marker alone. *)
Definition quiet (e e' : Event) : Prop :=
  dates_agree (proposals e) (proposals e')
  ∧ earliest e' = earliest e ∧ latest e' = latest e
  ∧ finalized e' = finalized e.

(** The shapes a call can have. *)
Inductive effect (e : Event) : outcome Value → Event → Prop :=
| effect_quiet o e' :
    quiet e e' → (∀ k, o ≠ Return (VIndex k)) → effect e o e'
| effect_propose t :
    isFinalized e = false →
    effect e (Return (VIndex (length (proposals e)))) (proposeDate t e).2
| effect_unpropose i :
    effect e (Return VUndefined) (unpropose i e)
| effect_marker f :
    (∀ i, f = Some i → live e i) →
    effect e (Return VUndefined) (set_finalized f e).

(** The comparison dates of an event that satisfies the invariant. *)
Definition comparison_dates_right (e : Event) : Prop :=
  match finalized e with
  | Some f =>
      ∃ p, slot (proposals e) f = Some p
        ∧ earliestComparisonDate e = (Return (Some (date p)), e)
        ∧ latestComparisonDate e = (Return (Some (date p)), e)
  | None =>
      ∃ lo hi,
        earliestComparisonDate e = (Return lo, e)
        ∧ latestComparisonDate e = (Return hi, e)
        ∧ is_min_of (live_instants e) (valueOf <$> lo)
        ∧ is_max_of (live_instants e) (valueOf <$> hi)
  end.

(** ** Indices *)

(** The indices that the calls of a sequence returned. *)
Definition returned_indices (os : list (outcome Value)) : list nat :=
  omap (λ o, match o with Return (VIndex k) => Some k | _ => None end) os.

(** ** compareTo and matches *)

Definition isSame (a b : Moment) : bool := (valueOf a =? valueOf b)%Z.

(** [this.compareTo(other)].  The dates are null or moment objects.  The
    first test [a === b] holds for two nulls and for one and the same
    object; for the same object [a.isSame(b)] holds as well, so both ways
    the method returns 0. *)
Definition compareTo (this other : Event) : outcome Z :=
  match earliestComparisonDate this with
  | (Throw err, _) => Throw err
  | (Return a, _) =>
      match earliestComparisonDate other with
      | (Throw err, _) => Throw err
      | (Return b, _) =>
          match a, b with
          | None, None => Return 0%Z
          | None, Some _ => Return (-1)%Z
          | Some _, None => Return 1%Z
          | Some a, Some b =>
              if isSame a b then Return 0%Z
              else Return (if isBefore a b then (-1)%Z else 1%Z)
          end
      end
  end.

(** What [compareTo] returns, in terms of the two dates: null before any
    date, dates by their instants. *)
Definition compare_dates (a b : option Moment) : Z :=
  match a, b with
  | None, None => 0
  | None, Some _ => -1
  | Some _, None => 1
  | Some a, Some b => Z.sgn (valueOf a - valueOf b)
  end.

(** The filter record of [matches]: a field that is absent is [false] or
    [None].  [invited] is absent or a string, and the empty string counts
    as absent ([if (filter.invited)]). *)
Record Filter : Type := mkFilter {
  f_finalized : bool;
  f_unfinalized : bool;
  f_before : option Moment;
  f_after : option Moment;
  f_invited : option string
}.

Definition truthy (s : option string) : bool :=
  match s with
  | Some s => negb (String.eqb s "")
  | None => false
  end.

Definition matches (filter : Filter) : M bool := λ this,
  (e ← earliestComparisonDate;
   l ← latestComparisonDate;
   let m := true in
   let m := if f_finalized filter
            then (if negb (isFinalized this) then false else m) else m in
   let m := if f_unfinalized filter
            then (if isFinalized this then false else m) else m in
   let m := match f_before filter, e with
            | Some before, Some e => if isAfter e before then false else m
            | _, _ => m
            end in
   let m := match f_after filter, l with
            | Some after, Some l => if isBefore l after then false else m
            | _, _ => m
            end in
   let m := if truthy (f_invited filter)
            then (if negb (bool_decide (default ""%string (f_invited filter) ∈ invitees this))
                  then false else m)
            else m in
   mret m) this.

(** The filter that has no field. *)
Definition no_filter : Filter := mkFilter false false None None None.

(** ** Vocabulary of the further properties *)

(** The clauses of a filter, given the two comparison dates of the
    event. *)
Definition passes (filter : Filter) (e : Event) (lo hi : option Moment) : Prop :=
  (f_finalized filter = true → isFinalized e = true)
  ∧ (f_unfinalized filter = true → isFinalized e = false)
  ∧ (∀ before d, f_before filter = Some before → lo = Some d →
       (valueOf d ≤ valueOf before)%Z)
  ∧ (∀ after d, f_after filter = Some after → hi = Some d →
       (valueOf after ≤ valueOf d)%Z)
  ∧ (∀ uid, f_invited filter = Some uid → uid ≠ ""%string → uid ∈ invitees e).

(** The clauses of a filter as booleans, one per field. *)
Definition clauses (filter : Filter) (e : Event) (lo hi : option Moment) : bool :=
  (if f_finalized filter then isFinalized e else true)
  && (if f_unfinalized filter then negb (isFinalized e) else true)
  && match f_before filter, lo with
     | Some before, Some d => negb (isAfter d before)
     | _, _ => true
     end
  && match f_after filter, hi with
     | Some after, Some d => negb (isBefore d after)
     | _, _ => true
     end
  && (if truthy (f_invited filter)
      then bool_decide (default ""%string (f_invited filter) ∈ invitees e)
      else true).

(** The calls that go through the methods of the event, as opposed to the
    direct [yes] and [no] on a proposal. *)
Definition event_call (op : Op) : bool :=
  match op with
  | OpYes _ _ | OpNo _ _ => false
  | _ => true
  end.

(** The calls that keep the leader marks up to date: all but [unpropose]
    and the direct [yes] and [no]. *)
Definition marking_call (op : Op) : bool :=
  match op with
  | OpUnpropose _ | OpYes _ _ | OpNo _ _ => false
  | _ => true
  end.

(** Everybody who is attending a live proposal has responded. *)
Definition attendees_responded (e : Event) : Prop :=
  ∀ j p, slot (proposals e) j = Some p → accepted p ⊆ responses e.

(** The way a vote changes the accepted set of proposal [i]. *)
Definition vote_on (f : gset string → gset string) (i j : nat)
    (p : Proposal) : gset string :=
  if bool_decide (j = i) then f (accepted p) else accepted p.

(** * Properties *)

Example adds_proposed_dates :
  proposalKeys (after [OpProposeDate Scenario.nextWeek] Scenario.proposed) = [0; 1].
Proof. reflexivity. Qed.

Example removes_proposed_dates :
  let e := after [OpProposeDate Scenario.nextMonth; OpUnpropose 0] Scenario.proposed in
  proposalKeys e = [1] ∧ (proposal 0 e).1 = Throw InvalidProposalError
  ∧ (date <$> slot (proposals e) 1) = Some Scenario.nextMonth.
Proof. vm_compute. done. Qed.

Example tracks_accepts :
  (λ p, (yesCount p, isLeading p)) <$> live_proposals Scenario.voted
  = [(3, true); (2, false); (1, false)].
Proof. vm_compute. reflexivity. Qed.

(** ** Basic facts about slots and field updates *)

Lemma slot_delete_slot ps i j :
  slot (delete_slot i ps) j = if bool_decide (j = i) then None else slot ps j.
Proof.
  unfold slot, delete_slot. case_bool_decide as Hji.
  - subst j. destruct (decide (i < length ps)) as [Hlt|Hge].
    + by rewrite list_lookup_insert_eq.
    + rewrite list_insert_ge by lia. by rewrite lookup_ge_None_2 by lia.
  - by rewrite list_lookup_insert_ne.
Qed.

Lemma slot_app_new ps p j :
  slot (ps ++ [Some p]) j =
  if bool_decide (j = length ps) then Some p else slot ps j.
Proof.
  unfold slot. case_bool_decide as Hj.
  - subst j. by rewrite lookup_app_r, Nat.sub_diag.
  - destruct (decide (j < length ps)).
    + by rewrite lookup_app_l.
    + rewrite !lookup_ge_None_2; [done | lia | rewrite length_app; simpl; lia].
Qed.

Lemma slot_lt ps j p : slot ps j = Some p → j < length ps.
Proof.
  unfold slot. intros H. destruct (ps !! j) eqn:E; [|done].
  by apply lookup_lt_Some in E.
Qed.

Lemma proposals_unpropose i e :
  proposals (unpropose i e) = delete_slot i (proposals e).
Proof. unfold unpropose. repeat case_match; reflexivity. Qed.

Lemma invitees_unpropose i e : invitees (unpropose i e) = invitees e.
Proof. unfold unpropose. repeat case_match; reflexivity. Qed.

Lemma responses_unpropose i e : responses (unpropose i e) = responses e.
Proof. unfold unpropose. repeat case_match; reflexivity. Qed.

Lemma finalized_unpropose i e :
  finalized (unpropose i e) =
  if bool_decide (finalized e = Some i) then None else finalized e.
Proof.
  unfold unpropose.
  destruct (same_object _ (earliest e) i); simpl;
    destruct (same_object _ _ i); simpl; by repeat case_bool_decide.
Qed.

(** ** unpropose and the leader marker *)

(** C10: [unpropose(i)] recomputes no leader: slot [i] becomes invalid and
    every other slot holds the proposal it held, with the [isLeading] flag
    (and the votes) it had. *)
Theorem C10_unpropose_keeps_leading_flags (e : Event) (i j : nat) :
  slot (proposals (unpropose i e)) j =
    (if bool_decide (j = i) then None else slot (proposals e) j)
  ∧ (isLeading <$> slot (proposals (unpropose i e)) j) =
    (if bool_decide (j = i) then None else isLeading <$> slot (proposals e) j).
Proof.
  rewrite proposals_unpropose, slot_delete_slot.
  by case_bool_decide.
Qed.

(** After the scenario of the tests, removing the proposal with three
    votes leaves proposal 1 on top with two votes; its flag stays as it
    was, and so does every other. *)
Example unpropose_leaves_stale_flags :
  let e := unpropose 0 Scenario.voted in
  max_yes Scenario.voted = 3 ∧ max_yes e = 2
  ∧ ((λ p, (yesCount p, isLeading p)) <$> live_proposals e)
    = [(2, false); (1, false)].
Proof. vm_compute. done. Qed.

(** ** finalize *)

Lemma live_slot e i : live e i ↔ ∃ p, slot (proposals e) i = Some p.
Proof. reflexivity. Qed.

Lemma not_live_slot e i : ¬ live e i ↔ slot (proposals e) i = None.
Proof. unfold live. rewrite <- eq_None_not_Some. reflexivity. Qed.

(** [finalize] looks at the index first and at the finalized marker
    second. *)
Lemma finalize_cases e i :
  finalize i e =
    match slot (proposals e) i with
    | None => (Throw InvalidProposalError, e)
    | Some _ => if isFinalized e then (Throw FinalizedEventError, e)
                else (Return (), set_finalized (Some i) e)
    end.
Proof. reflexivity. Qed.

(** C6, as the code has it.  On a finalized event every [finalize(i)]
    fails and changes nothing, with the finalized-event error when [i] is a
    live proposal and with the invalid-proposal error when it is not (the
    index is looked at first); on an open event it fails with the
    invalid-proposal error when [i] is not live and otherwise returns with
    [finalized = i] and nothing else changed. *)
Theorem C6_finalize_outcomes (e : Event) (i : nat) :
  finalize i e =
    if isFinalized e then
      (Throw (if bool_decide (live e i) then FinalizedEventError
              else InvalidProposalError), e)
    else if bool_decide (live e i) then (Return (), set_finalized (Some i) e)
    else (Throw InvalidProposalError, e).
Proof.
  rewrite finalize_cases. case_bool_decide as Hl.
  - apply live_slot in Hl as [p ->]. by destruct (isFinalized e).
  - apply not_live_slot in Hl as ->. by destruct (isFinalized e).
Qed.

(** C6 as stated fails: on a finalized event, [finalize] of an index that
    is not a live proposal throws the invalid-proposal error, not the
    finalized-event error. *)
Lemma C6_counterexample_invalid_index_first :
  let e := after [OpFinalize 0] Scenario.proposed in
  isFinalized e = true
  ∧ finalize 5 e = (Throw InvalidProposalError, e)
  ∧ (finalize 5 e).1 ≠ Throw FinalizedEventError.
Proof. vm_compute. by repeat split. Qed.

(** ** acceptProposal and rejectProposal, step by step *)

Lemma acceptProposal_unfold uid i e :
  acceptProposal uid i e =
    let e1 := responded uid (invite uid e) in
    match slot (proposals e) i with
    | None => (Throw InvalidProposalError, e1)
    | Some p =>
        remarkLeader (set_proposals (<[i := Some (yes uid p)]> (proposals e)) e1)
    end.
Proof.
  unfold acceptProposal, mbind, M_bind, bind, modify, proposal, update_proposal.
  simpl. destruct (slot (proposals e) i) eqn:E; [|reflexivity].
  simpl. by rewrite E.
Qed.

Lemma rejectProposal_unfold uid i e :
  rejectProposal uid i e =
    let e1 := responded uid e in
    match slot (proposals e) i with
    | None => (Throw InvalidProposalError, e1)
    | Some p =>
        remarkLeader (set_proposals (<[i := Some (no uid p)]> (proposals e)) e1)
    end.
Proof.
  unfold rejectProposal, mbind, M_bind, bind, modify, proposal, update_proposal.
  simpl. destruct (slot (proposals e) i) eqn:E; [|reflexivity].
  simpl. by rewrite E.
Qed.

(** What [remarkLeader] leaves untouched. *)
Lemma remarkLeader_frame e :
  let e' := (remarkLeader e).2 in
  id e' = id e ∧ name e' = name e ∧ invitees e' = invitees e
  ∧ responses e' = responses e ∧ finalized e' = finalized e
  ∧ earliest e' = earliest e ∧ latest e' = latest e.
Proof.
  unfold remarkLeader. destruct (leading_count (proposals e) 2); simpl; [|done].
  destruct (mark_leaders a (proposals e)); done.
Qed.



Lemma yesCount_remark n p : yesCount (remark n p) = yesCount p.
Proof. unfold remark. by destruct (yesCount p =? n). Qed.

Lemma isLeading_remark n p : isLeading (remark n p) = (yesCount p =? n).
Proof. unfold remark. by destruct (yesCount p =? n). Qed.

Lemma date_remark n p : date (remark n p) = date p.
Proof. unfold remark. by destruct (yesCount p =? n). Qed.

Lemma leading_count_hole ps n : None ∈ ps → leading_count ps n = Throw TypeError.
Proof.
  revert n. induction ps as [|[p|] l IH]; intros n Hin; simpl.
  - by apply elem_of_nil in Hin.
  - apply IH. apply elem_of_cons in Hin as [?|?]; [done|assumption].
  - reflexivity.
Qed.

Lemma leading_count_no_hole ps n :
  None ∉ ps →
  leading_count ps n = Return (n `max` max_list (yesCount <$> omap (λ o, o) ps)).
Proof.
  revert n. induction ps as [|[p|] l IH]; intros n Hin; simpl.
  - f_equal. lia.
  - rewrite IH by (intros ?; apply Hin; by right).
    f_equal.
    change (list_fmap _ _ yesCount (list_omap _ _ (λ o, o) l))
      with (yesCount <$> omap (λ o : option Proposal, o) l).
    destruct (Nat.ltb_spec n (yesCount p)); lia.
  - exfalso. apply Hin. by left.
Qed.

Lemma mark_leaders_no_hole n ps :
  None ∉ ps →
  mark_leaders n ps = (Return (), fmap (M:=option) (remark n) <$> ps).
Proof.
  induction ps as [|[p|] l IH]; intros Hin; simpl.
  - reflexivity.
  - rewrite IH by (intros ?; apply Hin; by right). reflexivity.
  - exfalso. apply Hin. by left.
Qed.

Lemma remarkLeader_no_hole e :
  ¬ has_hole e →
  remarkLeader e =
    (Return (),
     set_proposals (fmap (M:=option) (remark (2 `max` max_yes e)) <$> proposals e) e).
Proof.
  intros Hh. unfold remarkLeader.
  rewrite leading_count_no_hole by exact Hh.
  by rewrite mark_leaders_no_hole by exact Hh.
Qed.

Lemma remarkLeader_hole e :
  has_hole e → remarkLeader e = (Throw TypeError, e).
Proof.
  intros Hh. unfold remarkLeader. by rewrite leading_count_hole by exact Hh.
Qed.

Lemma slot_fmap f (ps : list (option Proposal)) j : slot (fmap (M:=option) f <$> ps) j = f <$> slot ps j.
Proof. unfold slot. rewrite list_lookup_fmap. by destruct (ps !! j) as [[?|]|]. Qed.

Lemma elem_of_live_proposals e p :
  p ∈ live_proposals e ↔ ∃ j, slot (proposals e) j = Some p.
Proof.
  unfold live_proposals, slot. rewrite list_elem_of_omap. split.
  - intros (o & Ho & ->). apply list_elem_of_lookup in Ho as [j Hj].
    exists j. by rewrite Hj.
  - intros [j Hj]. exists (Some p). split; [|done].
    apply list_elem_of_lookup. exists j.
    destruct (proposals e !! j) as [[q|]|]; simpl in Hj; congruence.
Qed.

Lemma yesCount_le_max_yes e j p :
  slot (proposals e) j = Some p → yesCount p ≤ max_yes e.
Proof.
  intros Hj. unfold max_yes.
  assert (Hin : yesCount p ∈ yesCount <$> live_proposals e).
  { apply list_elem_of_fmap. exists p. split; [done|].
    apply elem_of_live_proposals. by exists j. }
  by apply max_list_elem_of_le.
Qed.

Lemma omap_fmap_slots (f : Proposal → Proposal) (ps : list (option Proposal)) :
  omap (λ o, o) (fmap (M:=option) f <$> ps) = f <$> omap (λ o : option Proposal, o) ps.
Proof. induction ps as [|[p|] l IH]; csimpl; [done | by rewrite IH | done]. Qed.

Lemma max_yes_remarked n e :
  max_yes (set_proposals (fmap (M:=option) (remark n) <$> proposals e) e) = max_yes e.
Proof.
  unfold max_yes, live_proposals. simpl. rewrite omap_fmap_slots.
  rewrite <- list_fmap_compose. f_equal. apply list_fmap_ext.
  intros ? p _. apply yesCount_remark.
Qed.

Lemma remarkLeader_marks e e' :
  remarkLeader e = (Return (), e') → leaders_marked e'.
Proof.
  intros Hr. destruct (decide (has_hole e)) as [Hh|Hh].
  { rewrite remarkLeader_hole in Hr by done. discriminate. }
  rewrite remarkLeader_no_hole in Hr by done. injection Hr as <-.
  intros j p. rewrite max_yes_remarked. simpl. rewrite slot_fmap.
  intros Hj. destruct (slot (proposals e) j) as [q|] eqn:Eq; [|done].
  injection Hj as <-. rewrite isLeading_remark, yesCount_remark.
  pose proof (yesCount_le_max_yes e j q Eq).
  rewrite Nat.eqb_eq. lia.
Qed.

(** ** The outcome of a vote *)

Lemma hole_insert_live (ps : list (option Proposal)) i p q :
  slot ps i = Some p → None ∈ <[i := Some q]> ps ↔ None ∈ ps.
Proof.
  intros Hi. pose proof (slot_lt _ _ _ Hi) as Hlt.
  rewrite !list_elem_of_lookup. split; intros [j Hj]; exists j.
  - destruct (decide (j = i)) as [->|Hne].
    + rewrite list_lookup_insert_eq in Hj by done. discriminate.
    + by rewrite list_lookup_insert_ne in Hj.
  - destruct (decide (j = i)) as [->|Hne].
    + unfold slot in Hi. rewrite Hj in Hi. discriminate.
    + by rewrite list_lookup_insert_ne.
Qed.

(** With no removed slot, a vote on a live proposal returns. *)
Lemma acceptProposal_returns e uid i :
  ¬ has_hole e → live e i → ∃ e', acceptProposal uid i e = (Return (), e').
Proof.
  intros Hh [p Hp]. rewrite acceptProposal_unfold. simpl. rewrite Hp.
  rewrite remarkLeader_no_hole; [by eexists|].
  unfold has_hole. simpl. by rewrite hole_insert_live.
Qed.

Lemma rejectProposal_returns e uid i :
  ¬ has_hole e → live e i → ∃ e', rejectProposal uid i e = (Return (), e').
Proof.
  intros Hh [p Hp]. rewrite rejectProposal_unfold. simpl. rewrite Hp.
  rewrite remarkLeader_no_hole; [by eexists|].
  unfold has_hole. simpl. by rewrite hole_insert_live.
Qed.

(** With a removed slot, a vote on a live proposal is recorded and then
    [remarkLeader] throws on the hole. *)
Lemma acceptProposal_hole e uid i p :
  has_hole e → slot (proposals e) i = Some p →
  acceptProposal uid i e =
    (Throw TypeError,
     set_proposals (<[i := Some (yes uid p)]> (proposals e))
                   (responded uid (invite uid e))).
Proof.
  intros Hh Hp. rewrite acceptProposal_unfold. simpl. rewrite Hp.
  apply remarkLeader_hole. unfold has_hole. simpl. by rewrite hole_insert_live.
Qed.

Lemma rejectProposal_hole e uid i p :
  has_hole e → slot (proposals e) i = Some p →
  rejectProposal uid i e =
    (Throw TypeError,
     set_proposals (<[i := Some (no uid p)]> (proposals e)) (responded uid e)).
Proof.
  intros Hh Hp. rewrite rejectProposal_unfold. simpl. rewrite Hp.
  apply remarkLeader_hole. unfold has_hole. simpl. by rewrite hole_insert_live.
Qed.

(** A vote on an index that is not live throws after the rosters were
    updated. *)
Lemma acceptProposal_invalid e uid i :
  ¬ live e i →
  acceptProposal uid i e = (Throw InvalidProposalError, responded uid (invite uid e)).
Proof.
  intros Hl. apply not_live_slot in Hl.
  rewrite acceptProposal_unfold. simpl. by rewrite Hl.
Qed.

Lemma rejectProposal_invalid e uid i :
  ¬ live e i →
  rejectProposal uid i e = (Throw InvalidProposalError, responded uid e).
Proof.
  intros Hl. apply not_live_slot in Hl.
  rewrite rejectProposal_unfold. simpl. by rewrite Hl.
Qed.

(** The rosters after a vote, whatever its outcome. *)
Lemma acceptProposal_rosters e uid i :
  invitees (acceptProposal uid i e).2 = {[uid]} ∪ invitees e
  ∧ responses (acceptProposal uid i e).2 = {[uid]} ∪ responses e.
Proof.
  rewrite acceptProposal_unfold. simpl.
  destruct (slot (proposals e) i) as [p|]; [|done].
  match goal with |- context [remarkLeader ?x] =>
    destruct (remarkLeader_frame x) as (_ & _ & -> & -> & _) end.
  done.
Qed.

Lemma rejectProposal_rosters e uid i :
  invitees (rejectProposal uid i e).2 = invitees e
  ∧ responses (rejectProposal uid i e).2 = {[uid]} ∪ responses e.
Proof.
  rewrite rejectProposal_unfold. simpl.
  destruct (slot (proposals e) i) as [p|]; [|done].
  match goal with |- context [remarkLeader ?x] =>
    destruct (remarkLeader_frame x) as (_ & _ & -> & -> & _) end.
  done.
Qed.

(** ** The leader marker after a vote *)

(** C1, as the code has it: when [acceptProposal] or [rejectProposal]
    returns, a live proposal is marked leading if and only if its
    [yesCount()] is the largest among the live proposals and that largest
    count is at least 2.  Proposals tied at that count are all leading. *)
Theorem C1_leaders_after_vote (e e' : Event) (uid : string) (i : nat) :
  acceptProposal uid i e = (Return (), e')
  ∨ rejectProposal uid i e = (Return (), e') →
  leaders_marked e'.
Proof.
  intros [H|H].
  - rewrite acceptProposal_unfold in H. simpl in H.
    destruct (slot (proposals e) i); [|discriminate].
    by eapply remarkLeader_marks.
  - rewrite rejectProposal_unfold in H. simpl in H.
    destruct (slot (proposals e) i); [|discriminate].
    by eapply remarkLeader_marks.
Qed.

(** The last vote of the scenario of the specification returns, and the
    marker is as the theorem says. *)
Lemma C1_leaders_after_vote_witness : leaders_marked SpecScenario.tallied.
Proof.
  apply (C1_leaders_after_vote SpecScenario.open SpecScenario.tallied "C" 2).
  left. vm_compute. reflexivity.
Defined.

(** C1 as stated fails on the scenario of the specification: with counts
    2, 2 and 1 the call returns and the two proposals with two votes are
    marked leading, although the largest count is not above 2. *)
Lemma C1_counterexample_two_votes_lead :
  let e := SpecScenario.tallied in
  acceptProposal "C" 2 SpecScenario.open = (Return (), e)
  ∧ ((λ p, (yesCount p, isLeading p)) <$> live_proposals e)
    = [(2, true); (2, true); (1, false)]
  ∧ max_yes e = 2
  ∧ ¬ leaders_above_two e.
Proof.
  split; [by vm_compute|]. split; [by vm_compute|]. split; [by vm_compute|].
  intros H.
  destruct (H 0 (mkProposal Scenario.tomorrow {["A"; "B"]} true)) as [H1 _].
  { by vm_compute. }
  specialize (H1 eq_refl). destruct H1 as [_ H1]. vm_compute in H1. lia.
Qed.

(** ** Votes on an event with a removed slot *)

(** C2: the code at an event with one removed and one live proposal.
    Both votes are recorded and then throw a [TypeError] from
    [remarkLeader], whose [for ... of] loop visits the hole. *)
Theorem C2_vote_throws_with_removed_slot :
  let e := SpecScenario.holed in
  has_hole e ∧ live e 1
  ∧ proposalKeys e = [1]
  ∧ (acceptProposal "frey" 1 e).1 = Throw TypeError
  ∧ (isAttending "frey" <$> slot (proposals (acceptProposal "frey" 1 e).2) 1)
    = Some true
  ∧ (rejectProposal "frey" 1 e).1 = Throw TypeError.
Proof.
  split; [by apply (bool_decide_unpack _); vm_compute|].
  split; [by apply (bool_decide_unpack _); vm_compute|].
  by vm_compute.
Qed.

(** ** Votes on an index that is not live *)

(** C3: the code at an index that was never handed out.  The call throws
    the invalid-proposal error, and the rosters have already been
    extended. *)
Theorem C3_failed_vote_extends_rosters :
  let e := Scenario.proposed in
  let ea := (acceptProposal "reostra" 5 e).2 in
  let er := (rejectProposal "reostra" 5 e).2 in
  ¬ live e 5
  ∧ (acceptProposal "reostra" 5 e).1 = Throw InvalidProposalError
  ∧ (rejectProposal "reostra" 5 e).1 = Throw InvalidProposalError
  ∧ invitees e = ∅ ∧ responses e = ∅
  ∧ invitees ea = {["reostra"]} ∧ responses ea = {["reostra"]}
  ∧ invitees er = ∅ ∧ responses er = {["reostra"]}
  ∧ ea ≠ e ∧ er ≠ e.
Proof.
  split; [by apply (bool_decide_unpack _); vm_compute|].
  do 8 (split; [by vm_compute|]).
  split; apply (bool_decide_unpack _); by vm_compute.
Qed.

(** ** Rosters *)

(** C8: a successful [acceptProposal(uid, i)] leaves [uid] in both
    [invitees] and [responses]; a successful [rejectProposal(uid, i)]
    leaves [uid] in [responses] and does not touch [invitees]. *)
Theorem C8_vote_rosters (e ea er : Event) (uid : string) (i : nat) :
  acceptProposal uid i e = (Return (), ea) →
  rejectProposal uid i e = (Return (), er) →
  (uid ∈ invitees ea ∧ uid ∈ responses ea)
  ∧ (uid ∈ responses er ∧ invitees er = invitees e
     ∧ (uid ∉ invitees e → uid ∉ invitees er)).
Proof.
  intros Ha Hr.
  destruct (acceptProposal_rosters e uid i) as [Ha1 Ha2].
  destruct (rejectProposal_rosters e uid i) as [Hr1 Hr2].
  rewrite Ha in Ha1, Ha2. rewrite Hr in Hr1, Hr2. simpl in Ha1, Ha2, Hr1, Hr2.
  split; [split|split; [|split]].
  - rewrite Ha1. apply elem_of_union_l. by apply elem_of_singleton.
  - rewrite Ha2. apply elem_of_union_l. by apply elem_of_singleton.
  - rewrite Hr2. apply elem_of_union_l. by apply elem_of_singleton.
  - exact Hr1.
  - by rewrite Hr1.
Qed.

(** Both votes of "fenris" on the first proposal of the tests return. *)
Lemma C8_vote_rosters_witness :
  let e := Scenario.proposed in
  ("fenris" ∈ invitees (acceptProposal "fenris" 0 e).2
   ∧ "fenris" ∈ responses (acceptProposal "fenris" 0 e).2)
  ∧ ("fenris" ∈ responses (rejectProposal "fenris" 0 e).2
     ∧ invitees (rejectProposal "fenris" 0 e).2 = invitees e
     ∧ ("fenris" ∉ invitees e → "fenris" ∉ invitees (rejectProposal "fenris" 0 e).2)).
Proof.
  apply (C8_vote_rosters Scenario.proposed _ _ "fenris" 0); vm_compute; reflexivity.
Defined.

(** ** Votes on a finalized event *)


(** On the finalized event of the tests the votes return as they do on
    the open one. *)
Example vote_after_finalize :
  let e := after [OpProposeDate Scenario.nextWeek; OpFinalize 0] Scenario.proposed in
  isFinalized e = true
  ∧ (acceptProposal "frey" 0 e).1 = Return ()
  ∧ (acceptProposal "frey" 1 e).1 = Return ()
  ∧ (rejectProposal "frey" 1 e).1 = Return ()
  ∧ finalized (acceptProposal "frey" 1 e).2 = Some 0.
Proof. by vm_compute. Qed.

(** ** The serialized form *)

Lemma Proposal_roundtrip p :
  ProposalM.deserialize (ProposalM.serialize p)
  = mkProposal (ts p) (accepted p) false.
Proof.
  unfold ProposalM.deserialize, ProposalM.serialize, moment_tz. simpl.
  rewrite list_to_set_elements_L. by destruct (ts p).
Qed.

Lemma proposals_roundtrip e :
  proposals (deserialize (serialize e))
  = fmap (M:=option) (λ p, mkProposal (ts p) (accepted p) false) <$> proposals e.
Proof.
  unfold deserialize, serialize. simpl.
  rewrite <- list_fmap_compose. apply list_fmap_ext.
  intros _ [p|] _; simpl; [|done]. f_equal. apply Proposal_roundtrip.
Qed.

Lemma keys_fmap (g : Proposal → Proposal) (ps : list (option Proposal)) n acc :
  reduce_from (λ acc _ ind, acc ++ [ind]) n (fmap (M:=option) g <$> ps) acc
  = reduce_from (λ acc _ ind, acc ++ [ind]) n ps acc.
Proof.
  revert n acc. induction ps as [|[p|] l IH]; intros n acc; simpl; [done|..]; apply IH.
Qed.

(** C4: [Event.deserialize(e.serialize())] has the id, the name, the
    invitees, the responses and the finalized index of [e], as many
    proposal slots as [e], holes exactly where [e] has them, and in every
    other slot a proposal with the timestamp, zone and accepted set of the
    one in [e]. *)
Theorem C4_serialize_roundtrip (e : Event) :
  let e' := deserialize (serialize e) in
  id e' = id e ∧ name e' = name e
  ∧ invitees e' = invitees e ∧ responses e' = responses e
  ∧ finalized e' = finalized e
  ∧ length (proposals e') = length (proposals e)
  ∧ proposalKeys e' = proposalKeys e
  ∧ ∀ j, (λ p, (valueOf (date p), tz (date p), accepted p)) <$> slot (proposals e') j
       = (λ p, (valueOf (date p), tz (date p), accepted p)) <$> slot (proposals e) j.
Proof.
  intros e'. subst e'.
  split; [reflexivity|]. split; [reflexivity|].
  split; [exact (list_to_set_elements_L (invitees e))|].
  split; [exact (list_to_set_elements_L (responses e))|].
  split; [reflexivity|].
  split; [|split].
  - rewrite proposals_roundtrip. by rewrite length_fmap.
  - unfold proposalKeys, reduce. rewrite proposals_roundtrip.
    apply keys_fmap.
  - intros j. rewrite proposals_roundtrip, slot_fmap.
    by destruct (slot (proposals e) j).
Qed.

(** What the round trip does not bring back: the leading flags and the
    earliest/latest caches start afresh. *)
Lemma deserialize_resets e :
  let e' := deserialize (serialize e) in
  earliest e' = None ∧ latest e' = None
  ∧ ∀ j p, slot (proposals e') j = Some p → isLeading p = false.
Proof.
  split; [reflexivity|]. split; [reflexivity|].
  intros j p. rewrite proposals_roundtrip, slot_fmap.
  destruct (slot (proposals e) j); simpl; [|done]. by intros [= <-].
Qed.

Example roundtrip_with_hole :
  let e := deserialize (serialize (unpropose 1 Scenario.voted)) in
  proposalKeys e = [0; 2]
  ∧ ((λ p, (date p, accepted p)) <$> slot (proposals e) 0)
    = Some (Scenario.tomorrow, {["frey"; "fenris"; "reostra"]})
  ∧ slot (proposals e) 1 = None.
Proof. vm_compute. done. Qed.

Lemma pick_min_pick : pick_min = pick isBefore.
Proof. reflexivity. Qed.

Lemma pick_max_pick : pick_max = pick isAfter.
Proof. reflexivity. Qed.

Lemma earlier_than_cached_beats : earlier_than_cached = beats_cached isBefore.
Proof. reflexivity. Qed.

Lemma later_than_cached_beats : later_than_cached = beats_cached isAfter.
Proof. reflexivity. Qed.

Lemma ref_date_lt ps j d : ref_date ps j = Some d → j < length ps.
Proof.
  unfold ref_date. destruct (slot ps j) eqn:E; [|done].
  intros _. by eapply slot_lt.
Qed.

Section Extremum.

Variable cmp : Moment → Moment → bool.
Variable R : Z → Z → Prop.
Hypothesis cmp_true : ∀ a b, cmp a b = true → R (valueOf a) (valueOf b).
Hypothesis cmp_false : ∀ a b, cmp a b = false → R (valueOf b) (valueOf a).
Hypothesis R_refl : ∀ x, R x x.
Hypothesis R_trans : ∀ x y z, R x y → R y z → R x z.

Lemma best_below_step index ps n acc x :
  ps !! n = Some x →
  best_below R index ps n acc →
  best_below R index ps (S n)
    (match x with None => acc | Some p => pick cmp index acc p n end).
Proof using cmp_true cmp_false R_refl R_trans.
  intros Hn Hacc.
  assert (Hslot : slot ps n = x) by (unfold slot; by rewrite Hn).
  destruct x as [p|].
  - unfold pick. case_bool_decide as Hi.
    + destruct acc as [[k q]|]; simpl in *.
      * destruct Hacc as (Hk & Hq & Hall). repeat split; [done..|].
        intros j q' Hj Hne Hs. apply (Hall j); [|done..]. subst n. lia.
      * intros j Hj Hne. apply Hacc; [|done]. subst n. lia.
    + destruct acc as [[k q]|]; simpl in *.
      * destruct Hacc as (Hk & Hq & Hall).
        destruct (cmp (date p) (date q)) eqn:Ec; simpl.
        -- repeat split; [done..|]. intros j q' Hj Hne Hs.
           destruct (decide (j = n)) as [->|Hjn].
           ++ rewrite Hslot in Hs. injection Hs as <-. apply R_refl.
           ++ eapply R_trans; [by apply cmp_true|]. apply (Hall j); [lia|done..].
        -- repeat split; [done..|]. intros j q' Hj Hne Hs.
           destruct (decide (j = n)) as [->|Hjn].
           ++ rewrite Hslot in Hs. injection Hs as <-. by apply cmp_false.
           ++ apply (Hall j); [lia|done..].
      * repeat split; [done..|]. intros j q' Hj Hne Hs.
        destruct (decide (j = n)) as [->|Hjn].
        -- rewrite Hslot in Hs. injection Hs as <-. apply R_refl.
        -- rewrite Hacc in Hs; [done|lia|done].
  - destruct acc as [[k q]|]; simpl in *.
    + destruct Hacc as (Hk & Hq & Hall). repeat split; [done..|].
      intros j q' Hj Hne Hs. destruct (decide (j = n)) as [->|Hjn].
      * rewrite Hslot in Hs. discriminate.
      * apply (Hall j); [lia|done..].
    + intros j Hj Hne. destruct (decide (j = n)) as [->|Hjn]; [done|].
      apply Hacc; [lia|done].
Qed.

Lemma reduce_from_best index rest :
  ∀ pre acc,
    best_below R index (pre ++ rest) (length pre) acc →
    best_below R index (pre ++ rest) (length (pre ++ rest))
      (reduce_from (pick cmp index) (length pre) rest acc).
Proof using cmp_true cmp_false R_refl R_trans.
  induction rest as [|x l IH]; intros pre acc Hacc.
  - simpl. by rewrite app_nil_r in *.
  - assert (Hn : (pre ++ x :: l) !! length pre = Some x).
    { by rewrite lookup_app_r, Nat.sub_diag. }
    pose proof (best_below_step index _ _ _ _ Hn Hacc) as Hstep.
    replace (pre ++ x :: l) with ((pre ++ [x]) ++ l) in * by by rewrite <- app_assoc.
    replace (S (length pre)) with (length (pre ++ [x])) in Hstep
      by (rewrite length_app; simpl; lia).
    specialize (IH _ _ Hstep).
    rewrite (length_app pre [x]) in IH. simpl length in IH.
    rewrite Nat.add_1_r in IH.
    destruct x as [p|]; simpl; exact IH.
Qed.

Lemma reduce_best index ps :
  best_below R index ps (length ps) (reduce (pick cmp index) None ps).
Proof using cmp_true cmp_false R_refl R_trans.
  apply (reduce_from_best index ps [] None). simpl. intros j Hj. lia.
Qed.

Lemma ref_date_delete index ps j :
  ref_date (delete_slot index ps) j =
  if bool_decide (j = index) then None else ref_date ps j.
Proof.
  unfold ref_date. rewrite slot_delete_slot.
  by destruct (bool_decide (j = index)).
Qed.

Lemma ref_date_push ps p j :
  ref_date (ps ++ [Some p]) j =
  if bool_decide (j = length ps) then Some (date p) else ref_date ps j.
Proof.
  unfold ref_date. rewrite slot_app_new.
  by destruct (bool_decide (j = length ps)).
Qed.

Lemma best_after_delete index ps r :
  ref_is_best R ps r →
  ref_is_best R (delete_slot index ps)
    (if same_object ps r index
     then fst <$> reduce (pick cmp index) None ps else r).
Proof using cmp_true cmp_false R_refl R_trans.
  intros Hr. destruct (same_object ps r index) eqn:Es.
  - pose proof (reduce_best index ps) as Hb.
    destruct (reduce (pick cmp index) None ps) as [[k q]|]; simpl in *.
    + destruct Hb as (Hk & Hq & Hall). exists (date q). split.
      * rewrite ref_date_delete. rewrite bool_decide_eq_false_2 by done.
        unfold ref_date. by rewrite Hq.
      * intros j d'. rewrite ref_date_delete. case_bool_decide as Hj; [done|].
        unfold ref_date. destruct (slot ps j) as [q'|] eqn:Eq; [|done].
        intros [= <-]. apply (Hall j); [by eapply slot_lt|done..].
    + intros j. rewrite ref_date_delete. case_bool_decide as Hj; [done|].
      unfold ref_date. destruct (slot ps j) as [q'|] eqn:Eq; [|done].
      rewrite Hb in Eq; [done|by eapply slot_lt|done].
  - destruct r as [k|]; simpl in *.
    + destruct Hr as (d & Hd & Hall). exists d.
      assert (Hk : k ≠ index).
      { intros ->. unfold ref_date in Hd.
        destruct (slot ps index); [|done].
        by rewrite bool_decide_eq_true_2 in Es. }
      clear Es. split.
      * rewrite ref_date_delete. by rewrite bool_decide_eq_false_2.
      * intros j d'. rewrite ref_date_delete.
        destruct (bool_decide (j = index)); [done|]. apply Hall.
    + intros j. rewrite ref_date_delete. by destruct (bool_decide (j = index)).
Qed.

Lemma best_after_push ps p r :
  ref_is_best R ps r →
  ref_is_best R (ps ++ [Some p])
    (if beats_cached cmp (ps ++ [Some p]) p r then Some (length ps) else r).
Proof using cmp_true cmp_false R_refl R_trans.
  intros Hr. unfold beats_cached. destruct r as [k|]; simpl in *.
  - destruct Hr as (d & Hd & Hall).
    pose proof (ref_date_lt _ _ _ Hd) as Hlt.
    rewrite ref_date_push, bool_decide_eq_false_2, Hd by lia.
    destruct (cmp (date p) d) eqn:Ec; simpl.
    + exists (date p). split.
      * by rewrite ref_date_push, bool_decide_eq_true_2.
      * intros j d'. rewrite ref_date_push. case_bool_decide.
        -- intros [= <-]. apply R_refl.
        -- intros Hj. eapply R_trans; [by apply cmp_true|by eapply Hall].
    + exists d. split.
      * by rewrite ref_date_push, bool_decide_eq_false_2 by lia.
      * intros j d'. rewrite ref_date_push. case_bool_decide.
        -- intros [= <-]. by apply cmp_false.
        -- apply Hall.
  - exists (date p). split.
    + by rewrite ref_date_push, bool_decide_eq_true_2.
    + intros j d'. rewrite ref_date_push. case_bool_decide.
      * intros [= <-]. apply R_refl.
      * by rewrite Hr.
Qed.

Lemma best_dates_agree ps ps' r :
  dates_agree ps ps' → ref_is_best R ps r → ref_is_best R ps' r.
Proof.
  intros [_ Hd] Hr. destruct r as [k|]; simpl in *.
  - destruct Hr as (d & Hk & Hall). exists d. rewrite Hd. split; [done|].
    intros j d'. rewrite Hd. apply Hall.
  - intros j. by rewrite Hd.
Qed.

End Extremum.

Lemma isBefore_true a b : isBefore a b = true → (valueOf a ≤ valueOf b)%Z.
Proof. unfold isBefore. intros H%Z.ltb_lt. lia. Qed.

Lemma isBefore_false a b : isBefore a b = false → (valueOf b ≤ valueOf a)%Z.
Proof. unfold isBefore. intros H%Z.ltb_ge. lia. Qed.

Lemma isAfter_true a b : isAfter a b = true → (valueOf a >= valueOf b)%Z.
Proof. unfold isAfter. intros H%Z.ltb_lt. lia. Qed.

Lemma isAfter_false a b : isAfter a b = false → (valueOf b >= valueOf a)%Z.
Proof. unfold isAfter. intros H%Z.ltb_ge. lia. Qed.

Lemma Zge_refl x : (x >= x)%Z.
Proof. lia. Qed.

Lemma Zge_trans x y z : (x >= y)%Z → (y >= z)%Z → (x >= z)%Z.
Proof. lia. Qed.

Lemma dates_agree_refl ps : dates_agree ps ps.
Proof. by split. Qed.

Lemma dates_agree_trans ps1 ps2 ps3 :
  dates_agree ps1 ps2 → dates_agree ps2 ps3 → dates_agree ps1 ps3.
Proof.
  intros [Hl1 Hd1] [Hl2 Hd2]. split; [congruence|].
  intros j. by rewrite Hd2, Hd1.
Qed.

Lemma quiet_refl e : quiet e e.
Proof. repeat split. Qed.

(** A method of a live proposal that keeps its date. *)
Lemma dates_agree_update ps i p q :
  slot ps i = Some p → date q = date p →
  dates_agree ps (<[i := Some q]> ps).
Proof.
  intros Hp Hq. split; [apply length_insert|].
  intros j. unfold ref_date, slot. destruct (decide (j = i)) as [->|Hne].
  - rewrite list_lookup_insert_eq by by eapply slot_lt.
    unfold slot in Hp. destruct (ps !! i) as [[p'|]|]; simpl in *; congruence.
  - by rewrite list_lookup_insert_ne.
Qed.

Lemma dates_agree_mark_leaders n ps :
  dates_agree ps (mark_leaders n ps).2.
Proof.
  induction ps as [|[p|] l IH]; simpl; [apply dates_agree_refl| |apply dates_agree_refl].
  destruct (mark_leaders n l) as [o l'] eqn:E. simpl in *.
  destruct IH as [Hl Hd]. split; [simpl; congruence|].
  intros [|j]; simpl.
  - unfold ref_date, slot. simpl. by destruct (yesCount p =? n).
  - apply Hd.
Qed.

Lemma quiet_remarkLeader e : quiet e (remarkLeader e).2.
Proof.
  pose proof (remarkLeader_frame e) as (_ & _ & _ & _ & Hf & He & Hl).
  split; [|done]. unfold remarkLeader.
  destruct (leading_count (proposals e) 2) as [n|]; simpl; [|apply dates_agree_refl].
  pose proof (dates_agree_mark_leaders n (proposals e)) as H.
  by destruct (mark_leaders n (proposals e)).
Qed.

(** ** What each call does to the proposals, the caches and the marker *)

Lemma quiet_same e e' :
  proposals e' = proposals e → earliest e' = earliest e →
  latest e' = latest e → finalized e' = finalized e → quiet e e'.
Proof. intros Hp He Hl Hf. split; [|done]. rewrite Hp. apply dates_agree_refl. Qed.

Lemma quiet_trans e1 e2 e3 : quiet e1 e2 → quiet e2 e3 → quiet e1 e3.
Proof.
  intros (Hd1 & He1 & Hl1 & Hf1) (Hd2 & He2 & Hl2 & Hf2).
  split; [by eapply dates_agree_trans|]. by rewrite He2, Hl2, Hf2.
Qed.

Lemma quiet_vote_tail e1 i p q :
  slot (proposals e1) i = Some p → date q = date p →
  quiet e1 (remarkLeader (set_proposals (<[i := Some q]> (proposals e1)) e1)).2.
Proof.
  intros Hp Hq.
  destruct (quiet_remarkLeader (set_proposals (<[i := Some q]> (proposals e1)) e1))
    as (Hd & He & Hl & Hf).
  split; [|by rewrite He, Hl, Hf].
  eapply dates_agree_trans; [|exact Hd]. by eapply dates_agree_update.
Qed.

Lemma quiet_vote_tail' e e1 i p q :
  quiet e e1 → proposals e1 = proposals e →
  slot (proposals e) i = Some p → date q = date p →
  quiet e (remarkLeader (set_proposals (<[i := Some q]> (proposals e)) e1)).2.
Proof.
  intros Hq1 Hps Hp Hq. rewrite <- Hps. eapply quiet_trans; [exact Hq1|].
  apply (quiet_vote_tail e1 i p q); [by rewrite Hps|done].
Qed.

Lemma quiet_acceptProposal uid i e : quiet e (acceptProposal uid i e).2.
Proof.
  rewrite acceptProposal_unfold. simpl.
  destruct (slot (proposals e) i) as [p|] eqn:Hp; [|by apply quiet_same].
  apply (quiet_vote_tail' e (responded uid (invite uid e)) i p (yes uid p));
    [by apply quiet_same|done..].
Qed.

Lemma quiet_rejectProposal uid i e : quiet e (rejectProposal uid i e).2.
Proof.
  rewrite rejectProposal_unfold. simpl.
  destruct (slot (proposals e) i) as [p|] eqn:Hp; [|by apply quiet_same].
  apply (quiet_vote_tail' e (responded uid e) i p (no uid p));
    [by apply quiet_same|done..].
Qed.

Lemma proposeDate_finalized t e :
  isFinalized e = true → proposeDate t e = (Throw FinalizedEventError, e).
Proof. unfold proposeDate. by intros ->. Qed.

Lemma proposeDate_open t e :
  isFinalized e = false →
  let ps := proposals e ++ [Some (ProposalM.new t)] in
  let e' := (proposeDate t e).2 in
  (proposeDate t e).1 = Return (length (proposals e))
  ∧ proposals e' = ps
  ∧ earliest e' = (if beats_cached isBefore ps (ProposalM.new t) (earliest e)
                   then Some (length (proposals e)) else earliest e)
  ∧ latest e' = (if beats_cached isAfter ps (ProposalM.new t) (latest e)
                 then Some (length (proposals e)) else latest e)
  ∧ finalized e' = finalized e
  ∧ invitees e' = invitees e ∧ responses e' = responses e.
Proof.
  intros Hf. unfold proposeDate. rewrite Hf.
  rewrite earlier_than_cached_beats, later_than_cached_beats. simpl.
  destruct (beats_cached isBefore _ _ (earliest e)); simpl;
    destruct (beats_cached isAfter _ _ (latest e)); simpl;
    rewrite length_app; simpl; repeat split; f_equal; lia.
Qed.

Lemma earliest_unpropose i e :
  earliest (unpropose i e) =
  if same_object (proposals e) (earliest e) i
  then fst <$> reduce (pick isBefore i) None (proposals e) else earliest e.
Proof.
  unfold unpropose. rewrite pick_min_pick.
  destruct (same_object _ (earliest e) i); simpl;
    destruct (same_object _ _ i); simpl; by case_bool_decide.
Qed.

Lemma latest_unpropose i e :
  latest (unpropose i e) =
  if same_object (proposals e) (latest e) i
  then fst <$> reduce (pick isAfter i) None (proposals e) else latest e.
Proof.
  unfold unpropose. rewrite pick_max_pick.
  destruct (same_object _ (earliest e) i); simpl;
    destruct (same_object _ _ i); simpl; by case_bool_decide.
Qed.

Lemma effect_exec op e : effect e (exec op e).1 (exec op e).2.
Proof.
  destruct op as [v|t|i|uid|uid|uid i|uid i|uid|i| |i uid|i uid]; simpl.
  - by apply effect_quiet.
  - unfold mbind, M_bind, bind. destruct (isFinalized e) eqn:Hf.
    + rewrite proposeDate_finalized by done. simpl. apply effect_quiet; [apply quiet_refl|done].
    + destruct (proposeDate_open t e Hf) as (Ho & _).
      destruct (proposeDate t e) as [o e'] eqn:E. simpl in Ho. subst o. simpl.
      replace e' with (proposeDate t e).2 by by rewrite E.
      by apply effect_propose.
  - apply effect_unpropose.
  - by apply effect_quiet.
  - by apply effect_quiet.
  - unfold mbind, M_bind, bind.
    pose proof (quiet_acceptProposal uid i e) as Hq.
    destruct (acceptProposal uid i e) as [[[]|err] e']; simpl in *;
      by apply effect_quiet.
  - unfold mbind, M_bind, bind.
    pose proof (quiet_rejectProposal uid i e) as Hq.
    destruct (rejectProposal uid i e) as [[[]|err] e']; simpl in *;
      by apply effect_quiet.
  - by apply effect_quiet.
  - unfold mbind, M_bind, bind. rewrite finalize_cases.
    destruct (slot (proposals e) i) as [p|] eqn:Hp; simpl;
      [|apply effect_quiet; [apply quiet_refl|done]].
    destruct (isFinalized e); simpl; [apply effect_quiet; [apply quiet_refl|done]|].
    apply effect_marker. intros ? [= <-]. by exists p.
  - apply (effect_marker e None). done.
  - unfold mbind, M_bind, bind, proposal, update_proposal, modify. simpl.
    destruct (slot (proposals e) i) as [p|] eqn:Hp; simpl.
    + apply effect_quiet; [|done]. split; [|done]. simpl. rewrite Hp.
      by apply (dates_agree_update _ _ p).
    + apply effect_quiet; [apply quiet_refl|done].
  - unfold mbind, M_bind, bind, proposal, update_proposal, modify. simpl.
    destruct (slot (proposals e) i) as [p|] eqn:Hp; simpl.
    + apply effect_quiet; [|done]. split; [|done]. simpl. rewrite Hp.
      by apply (dates_agree_update _ _ p).
    + apply effect_quiet; [apply quiet_refl|done].
Qed.

(** ** The invariant of the caches *)

Lemma live_ref_date e i : live e i ↔ is_Some (ref_date (proposals e) i).
Proof. unfold live, ref_date. by rewrite fmap_is_Some. Qed.

Lemma cache_inv_new eid ename : cache_inv (EventM.new eid ename).
Proof. repeat split; simpl; try done; intros j; by destruct j. Qed.

Lemma cache_inv_effect e o e' : effect e o e' → cache_inv e → cache_inv e'.
Proof.
  intros Heff (Hmin & Hmax & Hfin). destruct Heff as [o e' Hq _|t Hopen|i|f Hf].
  - destruct Hq as (Hd & He & Hl & Hf). unfold cache_inv. rewrite He, Hl, Hf.
    split; [by eapply best_dates_agree|]. split; [by eapply best_dates_agree|].
    intros f Hff. apply live_ref_date. destruct Hd as [_ Hd]. rewrite Hd.
    apply live_ref_date. by apply Hfin.
  - destruct (proposeDate_open t e Hopen) as (_ & Hps & He & Hl & Hf & _).
    unfold cache_inv. rewrite Hps, He, Hl, Hf. split; [|split].
    + apply best_after_push;
        [apply isBefore_true | apply isBefore_false | reflexivity
        | intros x y z; apply Z.le_trans | done].
    + apply best_after_push;
        [apply isAfter_true | apply isAfter_false | apply Zge_refl
        | apply Zge_trans | done].
    + intros f Hff. unfold isFinalized in Hopen. by rewrite Hff in Hopen.
  - unfold cache_inv.
    rewrite proposals_unpropose, earliest_unpropose, latest_unpropose,
      finalized_unpropose.
    split; [|split].
    + apply best_after_delete;
        [apply isBefore_true | apply isBefore_false | reflexivity
        | intros x y z; apply Z.le_trans | done].
    + apply best_after_delete;
        [apply isAfter_true | apply isAfter_false | apply Zge_refl
        | apply Zge_trans | done].
    + intros f. case_bool_decide as Hfi; [done|]. intros Hff.
      unfold live. rewrite proposals_unpropose, slot_delete_slot.
      rewrite bool_decide_eq_false_2; [by apply Hfin|]. congruence.
  - split; [done|]. split; [done|]. simpl. exact Hf.
Qed.

Lemma cache_inv_after ops : ∀ e, cache_inv e → cache_inv (after ops e).
Proof.
  unfold after. induction ops as [|op rest IH]; intros e He; simpl; [done|].
  pose proof (effect_exec op e) as Heff.
  destruct (exec op e) as [o e1]. simpl in Heff.
  specialize (IH e1 (cache_inv_effect _ _ _ Heff He)).
  by destruct (run rest e1).
Qed.

Lemma elem_of_live_instants e x :
  x ∈ live_instants e ↔ ∃ j d, ref_date (proposals e) j = Some d ∧ valueOf d = x.
Proof.
  unfold live_instants. rewrite list_elem_of_fmap. split.
  - intros (p & -> & [j Hj]%elem_of_live_proposals).
    exists j, (date p). unfold ref_date. by rewrite Hj.
  - intros (j & d & Hj & <-). unfold ref_date in Hj.
    destruct (slot (proposals e) j) as [p|] eqn:Hp; [|done].
    injection Hj as <-. exists p. split; [done|].
    apply elem_of_live_proposals. by exists j.
Qed.

Lemma best_is_min e r :
  ref_is_best Z.le (proposals e) r →
  is_min_of (live_instants e) (valueOf <$> (r ≫= ref_date (proposals e))).
Proof.
  destruct r as [k|]; simpl.
  - intros (d & Hd & Hall). rewrite Hd. simpl. split.
    + apply elem_of_live_instants. by exists k, d.
    + intros x (j & d' & Hj & <-)%elem_of_live_instants. by eapply Hall.
  - intros Hnone. destruct (live_instants e) as [|x l] eqn:E; [done|].
    assert (Hx : x ∈ live_instants e) by (rewrite E; by left).
    apply elem_of_live_instants in Hx as (j & d & Hj & _).
    by rewrite Hnone in Hj.
Qed.

Lemma best_is_max e r :
  ref_is_best Z.ge (proposals e) r →
  is_max_of (live_instants e) (valueOf <$> (r ≫= ref_date (proposals e))).
Proof.
  destruct r as [k|]; simpl.
  - intros (d & Hd & Hall). rewrite Hd. simpl. split.
    + apply elem_of_live_instants. by exists k, d.
    + intros x (j & d' & Hj & <-)%elem_of_live_instants.
      apply Z.ge_le. by eapply Hall.
  - intros Hnone. destruct (live_instants e) as [|x l] eqn:E; [done|].
    assert (Hx : x ∈ live_instants e) by (rewrite E; by left).
    apply elem_of_live_instants in Hx as (j & d & Hj & _).
    by rewrite Hnone in Hj.
Qed.

Lemma comparison_dates e : cache_inv e → comparison_dates_right e.
Proof.
  intros (Hmin & Hmax & Hfin). unfold comparison_dates_right.
  destruct (finalized e) as [f|] eqn:Hf.
  - destruct (Hfin f eq_refl) as [p Hp]. exists p. split; [done|].
    unfold earliestComparisonDate, latestComparisonDate, isFinalized,
      mbind, M_bind, bind, finalProposal, proposal.
    by rewrite Hf, Hp.
  - exists (earliest e ≫= ref_date (proposals e)),
           (latest e ≫= ref_date (proposals e)).
    unfold earliestComparisonDate, latestComparisonDate, isFinalized.
    rewrite Hf. split; [|split; [|split]].
    + by destruct (earliest e ≫= ref_date (proposals e)).
    + by destruct (latest e ≫= ref_date (proposals e)).
    + by apply best_is_min.
    + by apply best_is_max.
Qed.



(** A restored event starts without caches: its comparison dates are null
    although a proposal is live. *)
Example restored_event_has_no_cache :
  let e := deserialize (serialize Scenario.proposed) in
  proposalKeys e = [0] ∧ (earliestComparisonDate e).1 = Return None.
Proof. by vm_compute. Qed.

Lemma outcomes_cons op rest e :
  outcomes (op :: rest) e = (exec op e).1 :: outcomes rest (exec op e).2.
Proof.
  unfold outcomes. simpl. destruct (exec op e) as [o e1]. simpl.
  by destruct (run rest e1).
Qed.

Lemma after_cons op rest e : after (op :: rest) e = after rest (exec op e).2.
Proof.
  unfold after. simpl. destruct (exec op e) as [o e1]. simpl.
  by destruct (run rest e1).
Qed.

Lemma effect_length e o e' :
  effect e o e' →
  match o with
  | Return (VIndex k) => k = length (proposals e) ∧ length (proposals e') = S k
  | _ => length (proposals e') = length (proposals e)
  end.
Proof.
  intros [o' e'' (Hd & _) Hno|t Hopen|i|f Hf].
  - destruct Hd as [Hlen _]. destruct o' as [[|k]|]; [done| |done].
    by destruct (Hno k).
  - destruct (proposeDate_open t e Hopen) as (_ & -> & _).
    rewrite length_app. simpl. split; [done|lia].
  - rewrite proposals_unpropose. apply length_insert.
  - done.
Qed.

Lemma effect_dead e o e' i :
  effect e o e' → i < length (proposals e) →
  slot (proposals e) i = None → slot (proposals e') i = None.
Proof.
  intros [o' e'' (Hd & _) Hno|t Hopen|j|f Hf] Hi Hs.
  - destruct Hd as [_ Hd]. specialize (Hd i). unfold ref_date in Hd.
    rewrite Hs in Hd. by destruct (slot (proposals e'') i).
  - destruct (proposeDate_open t e Hopen) as (_ & -> & _).
    rewrite slot_app_new. by rewrite bool_decide_eq_false_2 by lia.
  - rewrite proposals_unpropose, slot_delete_slot. by case_bool_decide.
  - done.
Qed.

Lemma after_dead ops :
  ∀ e i, i < length (proposals e) → slot (proposals e) i = None →
    slot (proposals (after ops e)) i = None.
Proof.
  induction ops as [|op rest IH]; intros e i Hi Hs; [done|].
  rewrite after_cons. pose proof (effect_exec op e) as Heff.
  apply IH; [|by eapply effect_dead].
  pose proof (effect_length _ _ _ Heff) as Hl.
  destruct (exec op e).1 as [[|k]|]; simpl in *; lia.
Qed.

(** Indices are handed out in order: the calls of a sequence return the
    indices from the current length of the array on, one after the other. *)
Lemma returned_in_order ops :
  ∀ e, returned_indices (outcomes ops e)
       = seq (length (proposals e)) (length (returned_indices (outcomes ops e))).
Proof.
  induction ops as [|op rest IH]; intros e; [done|].
  rewrite outcomes_cons. pose proof (effect_length _ _ _ (effect_exec op e)) as Hl.
  specialize (IH (exec op e).2). unfold returned_indices in *.
  destruct (exec op e).1 as [[|k]|]; csimpl.
  - by rewrite <- Hl.
  - destruct Hl as [-> Hl]. f_equal. by rewrite <- Hl.
  - by rewrite <- Hl.
Qed.

Lemma returned_ge ops e k :
  k ∈ returned_indices (outcomes ops e) → length (proposals e) ≤ k.
Proof.
  rewrite returned_in_order. rewrite elem_of_seq. lia.
Qed.

Lemma proposal_unproposed i e :
  proposal i (unpropose i e) = (Throw InvalidProposalError, unpropose i e).
Proof.
  unfold proposal. rewrite proposals_unpropose, slot_delete_slot.
  by rewrite bool_decide_eq_true_2.
Qed.

(** C7, as the code has it.  Right after [unpropose(i)], [proposal(i)]
    throws the invalid-proposal error, for every [i]; if [i] was the
    finalized index the marker is cleared and [finalProposal()] throws
    the not-finalized error.  For an index that has been handed out
    ([i] below the length of the array) this is for good: after any
    further calls [proposal(i)] still throws and no [proposeDate] returns
    [i]; [proposeDate] returns the indices from the length of the array on,
    one after the other. *)
Theorem C7_unproposed_index_is_gone (e : Event) (i : nat) (ops : list Op) :
  i < length (proposals e) →
  let e1 := unpropose i e in
  proposal i e1 = (Throw InvalidProposalError, e1)
  ∧ (finalized e = Some i →
     finalized e1 = None ∧ finalProposal e1 = (Throw UnfinalizedEventError, e1))
  ∧ (proposal i (after ops e1)).1 = Throw InvalidProposalError
  ∧ (i ∉ returned_indices (outcomes ops e1))
  ∧ (returned_indices (outcomes ops e1)
     = seq (length (proposals e)) (length (returned_indices (outcomes ops e1)))).
Proof.
  intros Hi e1.
  assert (Hlen : length (proposals e1) = length (proposals e)).
  { unfold e1. rewrite proposals_unpropose. apply length_insert. }
  assert (Hdead : slot (proposals e1) i = None).
  { unfold e1. rewrite proposals_unpropose, slot_delete_slot.
    by rewrite bool_decide_eq_true_2. }
  split; [apply proposal_unproposed|]. split; [|split; [|split]].
  - intros Hf.
    assert (Hf1 : finalized e1 = None).
    { unfold e1. rewrite finalized_unpropose. by rewrite bool_decide_eq_true_2. }
    split; [done|]. unfold finalProposal. by rewrite Hf1.
  - unfold proposal. rewrite (after_dead ops e1 i); [done|lia|done].
  - intros Hin%returned_ge. lia.
  - rewrite <- Hlen. apply returned_in_order.
Qed.

(** The finalized proposal 1 of the tests is removed, and two dates are
    proposed afterwards. *)
Lemma C7_unproposed_index_is_gone_witness :
  let e := after [OpFinalize 1] Scenario.voted in
  let ops := [OpProposeDate Scenario.nextWeek; OpAccept "frey" 1; OpProposeDate Scenario.tomorrow] in
  let e1 := unpropose 1 e in
  finalized e = Some 1
  ∧ proposal 1 e1 = (Throw InvalidProposalError, e1)
  ∧ (finalized e = Some 1 →
     finalized e1 = None ∧ finalProposal e1 = (Throw UnfinalizedEventError, e1))
  ∧ (proposal 1 (after ops e1)).1 = Throw InvalidProposalError
  ∧ (1 ∉ returned_indices (outcomes ops e1))
  ∧ (returned_indices (outcomes ops e1)
     = seq (length (proposals e)) (length (returned_indices (outcomes ops e1)))).
Proof.
  split; [by vm_compute|].
  apply (C7_unproposed_index_is_gone
           (after [OpFinalize 1] Scenario.voted) 1
           [OpProposeDate Scenario.nextWeek; OpAccept "frey" 1;
            OpProposeDate Scenario.tomorrow]).
  vm_compute. lia.
Defined.

(** C7 as stated fails for an index that was never handed out:
    [unpropose(0)] on a new event does nothing, the next [proposeDate]
    returns 0 and [proposal(0)] then succeeds. *)
Lemma C7_counterexample_index_not_yet_handed_out :
  let e1 := unpropose 0 (EventM.new "AAA" "Party") in
  let ops := [OpProposeDate Scenario.tomorrow] in
  e1 = EventM.new "AAA" "Party"
  ∧ outcomes ops e1 = [Return (VIndex 0)]
  ∧ (proposal 0 (after ops e1)).1 = Return (ProposalM.new Scenario.tomorrow).
Proof. by vm_compute. Qed.

(** * Further properties of the code *)

(** ** Votes: outcome, bookkeeping, repetition *)

Lemma mark_leaders_votes n ps j :
  ((λ p, (ts p, accepted p)) <$> slot (mark_leaders n ps).2 j)
  = ((λ p, (ts p, accepted p)) <$> slot ps j).
Proof.
  revert j. induction ps as [|[p|] l IH]; intros j; simpl; [done| |done].
  destruct (mark_leaders n l) as [o l'] eqn:E. simpl in *.
  destruct j as [|j]; simpl.
  - unfold slot. simpl. by destruct (yesCount p =? n).
  - apply IH.
Qed.

Lemma remarkLeader_votes e j :
  ((λ p, (ts p, accepted p)) <$> slot (proposals (remarkLeader e).2) j)
  = ((λ p, (ts p, accepted p)) <$> slot (proposals e) j).
Proof.
  unfold remarkLeader. destruct (leading_count (proposals e) 2) as [n|]; [|done].
  pose proof (mark_leaders_votes n (proposals e) j) as H.
  by destruct (mark_leaders n (proposals e)).
Qed.

Lemma fmap_pair_snd (o1 o2 : option Proposal) :
  ((λ p, (ts p, accepted p)) <$> o1) = ((λ p, (ts p, accepted p)) <$> o2) →
  (accepted <$> o1) = (accepted <$> o2) ∧ (date <$> o1) = (date <$> o2).
Proof.
  destruct o1, o2; simpl; intros H; try done.
  injection H as H1 H2. unfold date. by rewrite H1, H2.
Qed.

Lemma slot_insert_live (ps : list (option Proposal)) i j p q :
  slot ps i = Some p →
  slot (<[i := Some q]> ps) j = if bool_decide (j = i) then Some q else slot ps j.
Proof.
  intros Hp. pose proof (slot_lt _ _ _ Hp). unfold slot.
  case_bool_decide as Hj.
  - subst j. by rewrite list_lookup_insert_eq.
  - by rewrite list_lookup_insert_ne.
Qed.

(** X1: the three ways a vote can end.  On an index that is not a live
    proposal it throws the invalid-proposal error; on a live index of an
    event with a removed slot it throws a [TypeError]; otherwise it
    returns. *)
Theorem X1_vote_outcome (e : Event) (uid : string) (i : nat) :
  (acceptProposal uid i e).1 =
    (if bool_decide (live e i)
     then (if bool_decide (has_hole e) then Throw TypeError else Return ())
     else Throw InvalidProposalError)
  ∧ (rejectProposal uid i e).1 = (acceptProposal uid i e).1.
Proof.
  assert (Hr : (rejectProposal uid i e).1 =
    (if bool_decide (live e i)
     then (if bool_decide (has_hole e) then Throw TypeError else Return ())
     else Throw InvalidProposalError)).
  { case_bool_decide as Hl.
    - destruct Hl as [p Hp]. case_bool_decide as Hh.
      + by rewrite (rejectProposal_hole e uid i p).
      + destruct (rejectProposal_returns e uid i Hh) as [e' ->]; [by exists p|done].
    - by rewrite rejectProposal_invalid. }
  split; [|rewrite Hr]; case_bool_decide as Hl.
  - destruct Hl as [p Hp]. case_bool_decide as Hh.
    + by rewrite (acceptProposal_hole e uid i p).
    + destruct (acceptProposal_returns e uid i Hh) as [e' ->]; [by exists p|done].
  - by rewrite acceptProposal_invalid.
  - destruct Hl as [p Hp]. case_bool_decide as Hh.
    + by rewrite (acceptProposal_hole e uid i p).
    + destruct (acceptProposal_returns e uid i Hh) as [e' ->]; [by exists p|done].
  - by rewrite acceptProposal_invalid.
Qed.

(** X2: what a vote does to the proposals, whatever its outcome.  The
    accepted set of proposal [i] gains (accept) or loses (reject) [uid];
    every other accepted set, every date and every hole stays. *)
Theorem X2_vote_bookkeeping (e : Event) (uid : string) (i j : nat) :
  let ea := (acceptProposal uid i e).2 in
  let er := (rejectProposal uid i e).2 in
  (accepted <$> slot (proposals ea) j)
    = (vote_on (λ X, {[uid]} ∪ X) i j <$> slot (proposals e) j)
  ∧ (accepted <$> slot (proposals er) j)
    = (vote_on (λ X, X ∖ {[uid]}) i j <$> slot (proposals e) j)
  ∧ (date <$> slot (proposals ea) j) = (date <$> slot (proposals e) j)
  ∧ (date <$> slot (proposals er) j) = (date <$> slot (proposals e) j).
Proof.
  simpl. rewrite acceptProposal_unfold, rejectProposal_unfold. simpl.
  unfold vote_on.
  destruct (slot (proposals e) i) as [p|] eqn:Hp.
  - match goal with |- context [remarkLeader ?x] =>
      destruct (fmap_pair_snd _ _ (remarkLeader_votes x j)) as [-> ->] end.
    match goal with |- context [remarkLeader ?x] =>
      destruct (fmap_pair_snd _ _ (remarkLeader_votes x j)) as [-> ->] end.
    simpl. rewrite !(slot_insert_live _ i j p) by done.
    case_bool_decide as Hj; [subst j; by rewrite Hp|].
    by destruct (slot (proposals e) j).
  - simpl. case_bool_decide as Hj; [subst j; by rewrite Hp|].
    by destruct (slot (proposals e) j).
Qed.

Lemma remark_remark n p : remark n (remark n p) = remark n p.
Proof.
  unfold remark at 1. rewrite yesCount_remark. unfold remark.
  by destruct (yesCount p =? n).
Qed.

Lemma hole_fmap (f : Proposal → Proposal) (ps : list (option Proposal)) :
  None ∈ (fmap (M:=option) f <$> ps) ↔ None ∈ ps.
Proof.
  rewrite list_elem_of_fmap. split.
  - intros ([p|] & Hp & Hin); [done|exact Hin].
  - intros Hin. by exists None.
Qed.

Lemma remarkLeader_again e : remarkLeader (remarkLeader e).2 = remarkLeader e.
Proof.
  destruct (decide (has_hole e)) as [Hh|Hh].
  - rewrite (remarkLeader_hole e Hh). simpl. by apply remarkLeader_hole.
  - rewrite (remarkLeader_no_hole e Hh). simpl.
    rewrite remarkLeader_no_hole.
    + rewrite max_yes_remarked. unfold set_proposals. simpl. do 2 f_equal.
      rewrite <- list_fmap_compose. apply list_fmap_ext.
      intros _ [p|] _; simpl; [|done]. by rewrite remark_remark.
    + unfold has_hole. simpl. by rewrite hole_fmap.
Qed.

(** X3: [remarkLeader] is idempotent: run on the event it has left, it has
    the same outcome and leaves the event as it is. *)
Theorem X3_remarkLeader_idempotent (e : Event) :
  remarkLeader (remarkLeader e).2 = ((remarkLeader e).1, (remarkLeader e).2).
Proof. rewrite remarkLeader_again. by destruct (remarkLeader e). Qed.

Lemma invite_member uid e : uid ∈ invitees e → invite uid e = e.
Proof.
  intros H. destruct e. unfold invite, set_invitees. simpl in *. f_equal.
  by apply subseteq_union_1_L, singleton_subseteq_l.
Qed.

Lemma responded_member uid e : uid ∈ responses e → responded uid e = e.
Proof.
  intros H. destruct e. unfold responded, set_responses. simpl in *. f_equal.
  by apply subseteq_union_1_L, singleton_subseteq_l.
Qed.

Lemma set_proposals_same e : set_proposals (proposals e) e = e.
Proof. by destruct e. Qed.

(** A vote that changes nothing only recomputes the leaders. *)
Lemma acceptProposal_fixed e uid i q :
  slot (proposals e) i = Some q → uid ∈ accepted q →
  uid ∈ invitees e → uid ∈ responses e →
  acceptProposal uid i e = remarkLeader e.
Proof.
  intros Hq Hin Hi Hr. rewrite acceptProposal_unfold. simpl. rewrite Hq.
  rewrite invite_member, responded_member by done.
  assert (Hy : yes uid q = q).
  { destruct q. unfold yes. simpl in *. f_equal.
    by apply subseteq_union_1_L, singleton_subseteq_l. }
  rewrite Hy, list_insert_id; [by rewrite set_proposals_same|].
  unfold slot in Hq. destruct (proposals e !! i) as [[q'|]|]; simpl in *; congruence.
Qed.

Lemma rejectProposal_fixed e uid i q :
  slot (proposals e) i = Some q → uid ∉ accepted q → uid ∈ responses e →
  rejectProposal uid i e = remarkLeader e.
Proof.
  intros Hq Hin Hr. rewrite rejectProposal_unfold. simpl. rewrite Hq.
  rewrite responded_member by done.
  assert (Hy : no uid q = q).
  { destruct q. unfold no. simpl in *. f_equal.
    by apply difference_disjoint_L, disjoint_singleton_r. }
  rewrite Hy, list_insert_id; [by rewrite set_proposals_same|].
  unfold slot in Hq. destruct (proposals e !! i) as [[q'|]|]; simpl in *; congruence.
Qed.

Lemma accepted_after_remark e j q :
  slot (proposals (remarkLeader e).2) j = Some q →
  ∃ p, slot (proposals e) j = Some p ∧ accepted q = accepted p.
Proof.
  intros Hq. pose proof (remarkLeader_votes e j) as H. rewrite Hq in H.
  destruct (slot (proposals e) j) as [p|]; [|done].
  exists p. split; [done|]. simpl in H. by injection H.
Qed.

(** X4: a vote repeated is the vote cast once: the second identical
    [acceptProposal] (or [rejectProposal]) has the outcome of the first and
    leaves the event as the first left it. *)
Theorem X4_vote_twice (e : Event) (uid : string) (i : nat) :
  acceptProposal uid i (acceptProposal uid i e).2 = acceptProposal uid i e
  ∧ rejectProposal uid i (rejectProposal uid i e).2 = rejectProposal uid i e.
Proof.
  split.
  - destruct (acceptProposal_rosters e uid i) as [Hi Hr].
    destruct (slot (proposals e) i) as [p|] eqn:Hp.
    + pose (E0 := set_proposals (<[i := Some (yes uid p)]> (proposals e))
                                (responded uid (invite uid e))).
      assert (HA : acceptProposal uid i e = remarkLeader E0).
      { rewrite acceptProposal_unfold. simpl. by rewrite Hp. }
      rewrite HA in *.
      assert (H0 : slot (proposals E0) i = Some (yes uid p)).
      { unfold E0. simpl. rewrite (slot_insert_live _ i i p) by done.
        by rewrite bool_decide_eq_true_2. }
      pose proof (remarkLeader_votes E0 i) as Hv. rewrite H0 in Hv.
      destruct (slot (proposals (remarkLeader E0).2) i) as [q|] eqn:Hq; [|done].
      simpl in Hv. injection Hv as _ Hacc.
      rewrite (acceptProposal_fixed _ uid i q); [apply remarkLeader_again|done|..].
      * rewrite Hacc. apply elem_of_union_l. by apply elem_of_singleton.
      * rewrite Hi. apply elem_of_union_l. by apply elem_of_singleton.
      * rewrite Hr. apply elem_of_union_l. by apply elem_of_singleton.
    + assert (HA : acceptProposal uid i e
                   = (Throw InvalidProposalError, responded uid (invite uid e))).
      { rewrite acceptProposal_unfold. simpl. by rewrite Hp. }
      rewrite HA in *. simpl in *. rewrite acceptProposal_unfold. simpl. rewrite Hp.
      rewrite (invite_member uid), (responded_member uid); [done|..].
      * simpl. apply elem_of_union_l. by apply elem_of_singleton.
      * simpl. apply elem_of_union_l. by apply elem_of_singleton.
  - destruct (rejectProposal_rosters e uid i) as [Hi Hr].
    destruct (slot (proposals e) i) as [p|] eqn:Hp.
    + pose (E0 := set_proposals (<[i := Some (no uid p)]> (proposals e))
                                (responded uid e)).
      assert (HA : rejectProposal uid i e = remarkLeader E0).
      { rewrite rejectProposal_unfold. simpl. by rewrite Hp. }
      rewrite HA in *.
      assert (H0 : slot (proposals E0) i = Some (no uid p)).
      { unfold E0. simpl. rewrite (slot_insert_live _ i i p) by done.
        by rewrite bool_decide_eq_true_2. }
      pose proof (remarkLeader_votes E0 i) as Hv. rewrite H0 in Hv.
      destruct (slot (proposals (remarkLeader E0).2) i) as [q|] eqn:Hq; [|done].
      simpl in Hv. injection Hv as _ Hacc.
      rewrite (rejectProposal_fixed _ uid i q); [apply remarkLeader_again|done|..].
      * rewrite Hacc. intros [_ Hn]%elem_of_difference. apply Hn.
        by apply elem_of_singleton.
      * rewrite Hr. apply elem_of_union_l. by apply elem_of_singleton.
    + assert (HA : rejectProposal uid i e
                   = (Throw InvalidProposalError, responded uid e)).
      { rewrite rejectProposal_unfold. simpl. by rewrite Hp. }
      rewrite HA in *. simpl in *. rewrite rejectProposal_unfold. simpl. rewrite Hp.
      rewrite (responded_member uid); [done|].
      simpl. apply elem_of_union_l. by apply elem_of_singleton.
Qed.

(** X5: when [remarkLeader] returns, some live proposal is marked leading
    if and only if some live proposal has at least two votes. *)
Theorem X5_leader_exists (e e' : Event) :
  remarkLeader e = (Return (), e') →
  (∃ j p, slot (proposals e') j = Some p ∧ isLeading p = true)
  ↔ 2 ≤ max_yes e'.
Proof.
  intros Hr. pose proof (remarkLeader_marks e e' Hr) as Hm. split.
  - intros (j & p & Hp & Hl). by apply (Hm j p Hp) in Hl as [_ ?].
  - intros Hmax. unfold max_yes in *.
    assert (Hne : yesCount <$> live_proposals e' ≠ []).
    { intros Heq. rewrite Heq in Hmax. simpl in Hmax. lia. }
    apply max_list_elem_of in Hne.
    apply list_elem_of_fmap in Hne as (p & Hp & [j Hj]%elem_of_live_proposals).
    exists j, p. split; [done|]. apply (Hm j p Hj). by split.
Qed.

Lemma X5_leader_exists_witness :
  (∃ j p, slot (proposals Scenario.voted) j = Some p ∧ isLeading p = true)
  ↔ 2 ≤ max_yes Scenario.voted.
Proof.
  apply (X5_leader_exists Scenario.voted Scenario.voted). by vm_compute.
Defined.

(** ** Proposal slots: proposeDate, proposalKeys, unpropose *)

Lemma filter_ext_in {A} (P Q : A → Prop) `{!∀ x, Decision (P x), !∀ x, Decision (Q x)}
    (l : list A) :
  (∀ x, x ∈ l → P x ↔ Q x) → filter P l = filter Q l.
Proof.
  induction l as [|a l IH]; intros Hext; [done|].
  rewrite !filter_cons.
  rewrite IH by (intros x Hx; apply Hext; by right).
  assert (Ha : P a ↔ Q a) by (apply Hext; by left).
  destruct (decide (P a)) as [Hp|Hp], (decide (Q a)) as [Hq|Hq];
    try done; exfalso; tauto.
Qed.

Lemma keys_from (ps : list (option Proposal)) :
  ∀ n acc,
    reduce_from (λ acc _ ind, acc ++ [ind]) n ps acc
    = acc ++ filter (λ k, is_Some (slot ps (k - n))) (seq n (length ps)).
Proof.
  induction ps as [|x l IH]; intros n acc; simpl.
  - by rewrite app_nil_r.
  - rewrite filter_cons, Nat.sub_diag.
    assert (Hrest : filter (λ k, is_Some (slot (x :: l) (k - n))) (seq (S n) (length l))
                    = filter (λ k, is_Some (slot l (k - S n))) (seq (S n) (length l))).
    { apply filter_ext_in. intros k [Hk _]%elem_of_seq.
      replace (k - n) with (S (k - S n)) by lia. done. }
    rewrite Hrest. destruct x as [p|]; rewrite IH.
    + destruct (decide (is_Some (slot (Some p :: l) 0))) as [Hd|Hd].
      * by rewrite <- app_assoc.
      * exfalso. apply Hd. by eexists.
    + destruct (decide (is_Some (slot (None :: l) 0))) as [Hd|Hd]; [|done].
      by destruct Hd.
Qed.

Lemma proposalKeys_filter e :
  proposalKeys e = filter (live e) (seq 0 (length (proposals e))).
Proof.
  unfold proposalKeys, reduce. rewrite keys_from. simpl.
  apply list_filter_iff. intros k. by rewrite Nat.sub_0_r.
Qed.

(** X6: [proposalKeys()] lists exactly the live indices, in increasing
    order: it is the range of the array's indices with the removed ones
    left out. *)
Theorem X6_proposalKeys_are_live_indices (e : Event) :
  proposalKeys e = filter (live e) (seq 0 (length (proposals e)))
  ∧ ∀ k, k ∈ proposalKeys e ↔ live e k.
Proof.
  split; [apply proposalKeys_filter|].
  intros k. rewrite proposalKeys_filter, list_elem_of_filter, elem_of_seq.
  split; [by intros [? _]|]. intros Hl. split; [done|].
  destruct Hl as [p Hp%slot_lt]. lia.
Qed.

(** X7: [proposeDate] is all or nothing.  On a finalized event it throws
    the finalized-event error and changes nothing.  On an open event it
    returns the length of the array as the new index; the new slot holds a
    proposal with that date, no votes and no leader mark, every other slot
    is as before, the new index is appended to the keys, and the rosters
    and the marker are untouched. *)
Theorem X7_proposeDate_effect (e : Event) (t : Moment) :
  if isFinalized e then proposeDate t e = (Throw FinalizedEventError, e)
  else
    let n := length (proposals e) in
    let e' := (proposeDate t e).2 in
    (proposeDate t e).1 = Return n
    ∧ slot (proposals e') n = Some (mkProposal t ∅ false)
    ∧ (∀ j, j ≠ n → slot (proposals e') j = slot (proposals e) j)
    ∧ proposalKeys e' = proposalKeys e ++ [n]
    ∧ invitees e' = invitees e ∧ responses e' = responses e
    ∧ finalized e' = None.
Proof.
  destruct (isFinalized e) eqn:Hf; [by apply proposeDate_finalized|].
  destruct (proposeDate_open t e Hf) as (Ho & Hps & _ & _ & Hfin & Hi & Hr).
  simpl. split; [done|]. split.
  { rewrite Hps, slot_app_new. by rewrite bool_decide_eq_true_2. }
  split.
  { intros j Hj. rewrite Hps, slot_app_new. by rewrite bool_decide_eq_false_2. }
  split.
  { rewrite !proposalKeys_filter, Hps, length_app. simpl.
    rewrite Nat.add_1_r, seq_S, filter_app. simpl. f_equal.
    - apply filter_ext_in. intros k [_ Hk]%elem_of_seq. unfold live.
      rewrite Hps, slot_app_new. by rewrite bool_decide_eq_false_2 by lia.
    - rewrite filter_cons, decide_True; [done|].
      unfold live. rewrite Hps, slot_app_new. by rewrite bool_decide_eq_true_2. }
  split; [done|]. split; [done|].
  rewrite Hfin. unfold isFinalized in Hf. by destruct (finalized e).
Qed.

Lemma delete_slot_not_live ps i : slot ps i = None → delete_slot i ps = ps.
Proof.
  unfold slot, delete_slot. intros H.
  destruct (ps !! i) as [[p|]|] eqn:E; simpl in H; [done| |].
  - by apply list_insert_id.
  - apply list_insert_ge. by apply lookup_ge_None.
Qed.

Lemma unpropose_not_live e i :
  ¬ live e i →
  unpropose i e = if bool_decide (finalized e = Some i)
                  then set_finalized None e else e.
Proof.
  intros Hl%not_live_slot. unfold unpropose, same_object. rewrite Hl.
  destruct (earliest e); simpl; rewrite Hl;
    destruct (latest e); simpl; rewrite (delete_slot_not_live _ _ Hl);
    rewrite set_proposals_same; by case_bool_decide.
Qed.

(** X8: removing an index that is not a live proposal (never handed out,
    or already removed) changes nothing, except that a finalized marker
    pointing at that index is cleared; in particular a second
    [unpropose(i)] changes nothing. *)
Theorem X8_unpropose_absent_index (e : Event) (i : nat) :
  (¬ live e i →
   unpropose i e = if bool_decide (finalized e = Some i)
                   then set_finalized None e else e)
  ∧ unpropose i (unpropose i e) = unpropose i e.
Proof.
  split; [apply unpropose_not_live|].
  rewrite (unpropose_not_live (unpropose i e) i).
  - rewrite finalized_unpropose. by repeat case_bool_decide.
  - apply not_live_slot. rewrite proposals_unpropose, slot_delete_slot.
    by rewrite bool_decide_eq_true_2.
Qed.

(** X9: [unpropose(i)] removes index [i] from the keys and no other; the
    length of the array, the rosters and the votes on the other proposals
    stay. *)
Theorem X9_unpropose_effect (e : Event) (i : nat) :
  let e' := unpropose i e in
  proposalKeys e' = filter (λ k, k ≠ i) (proposalKeys e)
  ∧ length (proposals e') = length (proposals e)
  ∧ (∀ j, j ≠ i → slot (proposals e') j = slot (proposals e) j)
  ∧ invitees e' = invitees e ∧ responses e' = responses e.
Proof.
  simpl. split; [|split; [|split]].
  - rewrite !proposalKeys_filter, list_filter_filter.
    rewrite proposals_unpropose. unfold delete_slot at 1. rewrite length_insert.
    apply list_filter_iff. intros k. unfold live.
    rewrite proposals_unpropose, slot_delete_slot.
    case_bool_decide as Hk; split.
    + by intros [? ?].
    + by intros [? _].
    + done.
    + by intros [_ ?].
  - rewrite proposals_unpropose. apply length_insert.
  - intros j Hj. rewrite proposals_unpropose, slot_delete_slot.
    by rewrite bool_decide_eq_false_2.
  - by rewrite invitees_unpropose, responses_unpropose.
Qed.

(** ** Finalization *)

Lemma set_finalized_undo e i :
  finalized e = None → set_finalized None (set_finalized (Some i) e) = e.
Proof. destruct e. simpl. by intros ->. Qed.

(** X10: after a [finalize(i)] that returns, the event is finalized,
    [finalProposal()] returns proposal [i] with the votes it had,
    [proposeDate] and every further [finalize] throw, and [unfinalize()]
    brings back the event as it was before. *)
Theorem X10_finalize_then (e e' : Event) (i : nat) :
  finalize i e = (Return (), e') →
  isFinalized e' = true
  ∧ (∃ p, slot (proposals e) i = Some p ∧ finalProposal e' = (Return p, e'))
  ∧ (∀ t, proposeDate t e' = (Throw FinalizedEventError, e'))
  ∧ (∀ j, (finalize j e').1 ≠ Return ())
  ∧ unfinalize e' = e.
Proof.
  rewrite finalize_cases.
  destruct (slot (proposals e) i) as [p|] eqn:Hp; [|done].
  destruct (isFinalized e) eqn:Hf; [done|]. intros [= <-].
  split; [done|]. split.
  { exists p. split; [done|]. unfold finalProposal, proposal. simpl. by rewrite Hp. }
  split; [intros t; by apply proposeDate_finalized|]. split.
  { intros j. rewrite finalize_cases. simpl.
    by destruct (slot (proposals e) j). }
  apply set_finalized_undo. unfold isFinalized in Hf. by destruct (finalized e).
Qed.

Lemma X10_finalize_then_witness :
  let e := Scenario.voted in
  let e' := (finalize 1 e).2 in
  isFinalized e' = true
  ∧ (∃ p, slot (proposals e) 1 = Some p ∧ finalProposal e' = (Return p, e'))
  ∧ (∀ t, proposeDate t e' = (Throw FinalizedEventError, e'))
  ∧ (∀ j, (finalize j e').1 ≠ Return ())
  ∧ unfinalize e' = e.
Proof.
  apply (X10_finalize_then Scenario.voted _ 1). by vm_compute.
Defined.

(** X11: on an event built from [new Event] by calls, the finalized index
    is always a live proposal: [finalProposal()] returns that proposal when
    the event is finalized, throws the not-finalized error when it is
    open, and never throws the invalid-proposal error. *)
Theorem X11_finalProposal_on_built_events (eid ename : string) (ops : list Op) :
  let e := after ops (EventM.new eid ename) in
  match finalized e with
  | Some f => ∃ p, slot (proposals e) f = Some p ∧ finalProposal e = (Return p, e)
  | None => finalProposal e = (Throw UnfinalizedEventError, e)
  end.
Proof.
  simpl. set (e := after ops _).
  assert (Hinv : cache_inv e) by apply cache_inv_after, cache_inv_new.
  destruct Hinv as (_ & _ & Hfin). unfold finalProposal.
  destruct (finalized e) as [f|] eqn:Hf; [|done].
  destruct (Hfin f eq_refl) as [p Hp]. exists p. split; [done|].
  unfold proposal. by rewrite Hp.
Qed.

(** X12: on an event built from [new Event] by calls, the two comparison
    dates are returned, both are null or both are dates, and the earliest
    is not after the latest. *)
Theorem X12_earliest_not_after_latest (eid ename : string) (ops : list Op) :
  let e := after ops (EventM.new eid ename) in
  ∃ lo hi,
    earliestComparisonDate e = (Return lo, e)
    ∧ latestComparisonDate e = (Return hi, e)
    ∧ match lo, hi with
      | Some a, Some b => (valueOf a ≤ valueOf b)%Z
      | None, None => True
      | _, _ => False
      end.
Proof.
  simpl. set (e := after ops _).
  assert (Hinv : cache_inv e) by apply cache_inv_after, cache_inv_new.
  apply comparison_dates in Hinv. unfold comparison_dates_right in Hinv.
  destruct (finalized e) as [f|].
  - destruct Hinv as (p & _ & He & Hl). exists (Some (date p)), (Some (date p)).
    split; [done|]. split; [done|]. simpl. lia.
  - destruct Hinv as (lo & hi & He & Hl & Hmin & Hmax). exists lo, hi.
    split; [done|]. split; [done|].
    destruct lo as [a|], hi as [b|]; simpl in *.
    + destruct Hmin as [Ha _]. destruct Hmax as [_ Hb]. by apply Hb.
    + destruct Hmin as [Ha _]. rewrite Hmax in Ha. by apply elem_of_nil in Ha.
    + destruct Hmax as [Hb _]. rewrite Hmin in Hb. by apply elem_of_nil in Hb.
    + done.
Qed.

(** ** compareTo *)

Lemma earliest_date_returned e :
  cache_inv e → ∃ d, earliestComparisonDate e = (Return d, e).
Proof.
  intros Hinv%comparison_dates. unfold comparison_dates_right in Hinv.
  destruct (finalized e).
  - destruct Hinv as (p & _ & He & _). by eexists.
  - destruct Hinv as (lo & hi & He & _). by eexists.
Qed.

Lemma earliestComparisonDate_state e : (earliestComparisonDate e).2 = e.
Proof.
  unfold earliestComparisonDate, isFinalized.
  destruct (finalized e) as [f|] eqn:Hf.
  - unfold mbind, M_bind, bind, finalProposal, proposal. rewrite Hf.
    destruct (slot (proposals e) f); reflexivity.
  - destruct (earliest e ≫= ref_date (proposals e)); reflexivity.
Qed.

Lemma latestComparisonDate_state e : (latestComparisonDate e).2 = e.
Proof.
  unfold latestComparisonDate, isFinalized.
  destruct (finalized e) as [f|] eqn:Hf.
  - unfold mbind, M_bind, bind, finalProposal, proposal. rewrite Hf.
    destruct (slot (proposals e) f); reflexivity.
  - destruct (latest e ≫= ref_date (proposals e)); reflexivity.
Qed.

(** The only error of the comparison dates is the invalid-proposal error
    of a finalized index that is not live. *)
Lemma earliestComparisonDate_error e err :
  (earliestComparisonDate e).1 = Throw err → err = InvalidProposalError.
Proof.
  unfold earliestComparisonDate, isFinalized.
  destruct (finalized e) as [f|] eqn:Hf.
  - unfold mbind, M_bind, bind, finalProposal, proposal. rewrite Hf.
    destruct (slot (proposals e) f); simpl; congruence.
  - by destruct (earliest e ≫= ref_date (proposals e)).
Qed.

Lemma latestComparisonDate_error e err :
  (latestComparisonDate e).1 = Throw err → err = InvalidProposalError.
Proof.
  unfold latestComparisonDate, isFinalized.
  destruct (finalized e) as [f|] eqn:Hf.
  - unfold mbind, M_bind, bind, finalProposal, proposal. rewrite Hf.
    destruct (slot (proposals e) f); simpl; congruence.
  - by destruct (latest e ≫= ref_date (proposals e)).
Qed.

Lemma compareTo_dates this other a b :
  (earliestComparisonDate this).1 = Return a →
  (earliestComparisonDate other).1 = Return b →
  compareTo this other = Return (compare_dates a b).
Proof.
  unfold compareTo. intros Ha Hb.
  destruct (earliestComparisonDate this) as [oa ?].
  destruct (earliestComparisonDate other) as [ob ?]. simpl in *. subst oa ob.
  destruct a as [a|], b as [b|]; simpl; try done.
  unfold isSame, isBefore.
  destruct (Z.eqb_spec (valueOf a) (valueOf b)) as [Heq|Hne].
  - f_equal. lia.
  - f_equal. destruct (Z.ltb_spec (valueOf a) (valueOf b)); lia.
Qed.

Lemma compareTo_Return this other x :
  compareTo this other = Return x →
  ∃ a b, (earliestComparisonDate this).1 = Return a
       ∧ (earliestComparisonDate other).1 = Return b
       ∧ x = compare_dates a b.
Proof.
  intros H.
  destruct (earliestComparisonDate this) as [[a|erra] s1] eqn:E1;
    [|unfold compareTo in H; by rewrite E1 in H].
  destruct (earliestComparisonDate other) as [[b|errb] s2] eqn:E2;
    [|unfold compareTo in H; by rewrite E1, E2 in H].
  exists a, b. split; [done|]. split; [done|].
  rewrite (compareTo_dates this other a b) in H by by (rewrite E1 || rewrite E2).
  by injection H.
Qed.

(** X13: [compareTo] is antisymmetric: [b.compareTo(a)] returns the
    opposite of what [a.compareTo(b)] returns, and throws what it
    throws. *)
Theorem X13_compareTo_antisymmetric (a b : Event) :
  compareTo b a =
    match compareTo a b with
    | Return x => Return (- x)%Z
    | Throw err => Throw err
    end.
Proof.
  destruct (earliestComparisonDate a) as [[da|erra] s1] eqn:E1;
    destruct (earliestComparisonDate b) as [[db|errb] s2] eqn:E2.
  - rewrite (compareTo_dates a b da db), (compareTo_dates b a db da)
      by by (rewrite E1 || rewrite E2).
    f_equal. destruct da, db; simpl; try done.
    rewrite <- Z.sgn_opp. f_equal. lia.
  - unfold compareTo. rewrite E1, E2. done.
  - unfold compareTo. rewrite E1, E2. done.
  - pose proof (earliestComparisonDate_error a erra) as Ha.
    pose proof (earliestComparisonDate_error b errb) as Hb.
    rewrite E1 in Ha. rewrite E2 in Hb.
    unfold compareTo. rewrite E1, E2. by rewrite Ha, Hb.
Qed.

(** X14: [compareTo] is transitive: when [a.compareTo(b)] and
    [b.compareTo(c)] return values that are not positive, [a.compareTo(c)]
    returns a value that is not positive, and it returns 0 when both
    returned 0. *)
Theorem X14_compareTo_transitive (a b c : Event) (x y : Z) :
  compareTo a b = Return x → compareTo b c = Return y →
  ∃ z, compareTo a c = Return z
     ∧ ((x ≤ 0)%Z → (y ≤ 0)%Z → (z ≤ 0)%Z)
     ∧ (x = 0%Z → y = 0%Z → z = 0%Z).
Proof.
  intros (da & db & Ha & Hb & ->)%compareTo_Return
         (db' & dc & Hb' & Hc & ->)%compareTo_Return.
  rewrite Hb in Hb'. injection Hb' as <-.
  exists (compare_dates da dc). split; [by apply compareTo_dates|].
  destruct da, db, dc; simpl; lia.
Qed.

Lemma X14_compareTo_transitive_witness :
  let a := EventM.new "AAA" "empty" in
  let b := Scenario.proposed in
  let c := after [OpProposeDate Scenario.nextWeek; OpUnpropose 0] Scenario.proposed in
  compareTo a b = Return (-1)%Z ∧ compareTo b c = Return (-1)%Z
  ∧ ∃ z, compareTo a c = Return z
       ∧ ((-1 ≤ 0)%Z → (-1 ≤ 0)%Z → (z ≤ 0)%Z)
       ∧ ((-1)%Z = 0%Z → (-1)%Z = 0%Z → z = 0%Z).
Proof.
  split; [by vm_compute|]. split; [by vm_compute|].
  apply (X14_compareTo_transitive (EventM.new "AAA" "empty") Scenario.proposed
           (after [OpProposeDate Scenario.nextWeek; OpUnpropose 0] Scenario.proposed));
    by vm_compute.
Defined.

(** X15: on events built from [new Event] by calls, [compareTo] always
    returns, and returns -1, 0 or 1: 0 when neither event has a
    comparison date or both have the same instant, -1 when only the other
    has one or this one's is earlier. *)
Theorem X15_compareTo_on_built_events (ida na idb nb : string) (opsA opsB : list Op) :
  let a := after opsA (EventM.new ida na) in
  let b := after opsB (EventM.new idb nb) in
  ∃ da db,
    earliestComparisonDate a = (Return da, a)
    ∧ earliestComparisonDate b = (Return db, b)
    ∧ compareTo a b = Return (compare_dates da db)
    ∧ (compare_dates da db = (-1)%Z ∨ compare_dates da db = 0%Z
       ∨ compare_dates da db = 1%Z).
Proof.
  simpl. set (a := after opsA _). set (b := after opsB _).
  destruct (earliest_date_returned a) as (da & Ha); [apply cache_inv_after, cache_inv_new|].
  destruct (earliest_date_returned b) as (db & Hb); [apply cache_inv_after, cache_inv_new|].
  exists da, db. split; [done|]. split; [done|]. split.
  - apply compareTo_dates; by (rewrite Ha || rewrite Hb).
  - destruct da, db; simpl; lia.
Qed.

(** ** matches *)

Lemma latest_date_returned e :
  cache_inv e → ∃ d, latestComparisonDate e = (Return d, e).
Proof.
  intros Hinv%comparison_dates. unfold comparison_dates_right in Hinv.
  destruct (finalized e).
  - destruct Hinv as (p & _ & _ & Hl). by eexists.
  - destruct Hinv as (lo & hi & _ & Hl & _). by eexists.
Qed.

Lemma truthy_spec s : truthy s = true ↔ ∃ uid, s = Some uid ∧ uid ≠ ""%string.
Proof.
  destruct s as [uid|]; simpl.
  - rewrite negb_true_iff. destruct (String.eqb_spec uid "") as [->|Hne].
    + split; [done|]. by intros (? & [= <-] & ?).
    + split; [|done]. intros _. by exists uid.
  - split; [done|]. by intros (? & ? & _).
Qed.

Lemma matches_clauses filter e lo hi :
  earliestComparisonDate e = (Return lo, e) →
  latestComparisonDate e = (Return hi, e) →
  matches filter e = (Return (clauses filter e lo hi), e).
Proof.
  intros He Hl. unfold matches, mbind, M_bind, bind. rewrite He, Hl.
  unfold mret, M_ret, ret, clauses. f_equal. f_equal.
  destruct (f_finalized filter), (f_unfinalized filter), (isFinalized e),
    (truthy (f_invited filter)),
    (bool_decide (default ""%string (f_invited filter) ∈ invitees e));
    simpl;
    destruct (f_before filter) as [before|], lo as [dlo|]; simpl;
    try destruct (isAfter dlo before); simpl;
    destruct (f_after filter) as [after|], hi as [dhi|]; simpl;
    try destruct (isBefore dhi after); reflexivity.
Qed.

Lemma clause_flag (flag value : bool) :
  (if flag then value else true) = true ↔ (flag = true → value = true).
Proof. destruct flag, value; split; auto; intros H; by apply H. Qed.

Lemma clause_before (fb lo : option Moment) :
  match fb, lo with
  | Some before, Some d => negb (isAfter d before)
  | _, _ => true
  end = true
  ↔ ∀ before d, fb = Some before → lo = Some d → (valueOf d ≤ valueOf before)%Z.
Proof.
  destruct fb as [before|], lo as [d|]; try (split; [intros _ ? ? ? ?|]; done).
  unfold isAfter. rewrite negb_true_iff, Z.ltb_ge. split.
  - by intros H ? ? [= <-] [= <-].
  - intros H. by apply H.
Qed.

Lemma clause_after (fa hi : option Moment) :
  match fa, hi with
  | Some after, Some d => negb (isBefore d after)
  | _, _ => true
  end = true
  ↔ ∀ after d, fa = Some after → hi = Some d → (valueOf after ≤ valueOf d)%Z.
Proof.
  destruct fa as [after|], hi as [d|]; try (split; [intros _ ? ? ? ?|]; done).
  unfold isBefore. rewrite negb_true_iff, Z.ltb_ge. split.
  - by intros H ? ? [= <-] [= <-].
  - intros H. by apply H.
Qed.

Lemma clause_invited (fi : option string) (s : gset string) :
  (if truthy fi then bool_decide (default ""%string fi ∈ s) else true) = true
  ↔ ∀ uid, fi = Some uid → uid ≠ ""%string → uid ∈ s.
Proof.
  destruct (truthy fi) eqn:Ht.
  - apply truthy_spec in Ht as (uid & -> & Hne). simpl.
    rewrite bool_decide_eq_true. split.
    + by intros H ? [= <-] _.
    + intros H. by apply H.
  - split; [|done]. intros _ uid Hu Hne.
    assert (truthy fi = true) by (apply truthy_spec; eauto).
    congruence.
Qed.

Lemma clauses_passes filter e lo hi :
  clauses filter e lo hi = true ↔ passes filter e lo hi.
Proof.
  unfold clauses, passes. rewrite !andb_true_iff.
  rewrite clause_invited, clause_before, clause_after, !clause_flag.
  rewrite negb_true_iff. tauto.
Qed.

(** X16: on an event built from [new Event] by calls, [matches] returns,
    leaves the event as it is, and returns true exactly when every clause
    of the filter passes: the finalized and unfinalized flags against
    [isFinalized()], the earliest comparison date not after [before], the
    latest not before [after] (a null date passes both), and a non-empty
    [invited] among the invitees. *)
Theorem X16_matches_is_the_conjunction (eid ename : string) (ops : list Op)
    (filter : Filter) :
  let e := after ops (EventM.new eid ename) in
  ∃ lo hi b,
    earliestComparisonDate e = (Return lo, e)
    ∧ latestComparisonDate e = (Return hi, e)
    ∧ matches filter e = (Return b, e)
    ∧ (b = true ↔ passes filter e lo hi).
Proof.
  simpl. set (e := after ops _).
  assert (Hinv : cache_inv e) by apply cache_inv_after, cache_inv_new.
  destruct (earliest_date_returned e Hinv) as [lo Hlo].
  destruct (latest_date_returned e Hinv) as [hi Hhi].
  exists lo, hi, (clauses filter e lo hi).
  split; [done|]. split; [done|]. split; [by apply matches_clauses|].
  apply clauses_passes.
Qed.

(** X17: on an event built from [new Event] by calls, the filter without
    fields matches, and a filter that asks for finalized and unfinalized
    at once does not. *)
Theorem X17_matches_extremes (eid ename : string) (ops : list Op)
    (filter : Filter) :
  let e := after ops (EventM.new eid ename) in
  matches no_filter e = (Return true, e)
  ∧ (f_finalized filter = true → f_unfinalized filter = true →
     matches filter e = (Return false, e)).
Proof.
  simpl. set (e := after ops _).
  assert (Hinv : cache_inv e) by apply cache_inv_after, cache_inv_new.
  destruct (earliest_date_returned e Hinv) as [lo Hlo].
  destruct (latest_date_returned e Hinv) as [hi Hhi].
  split.
  - rewrite (matches_clauses no_filter e lo hi) by done. reflexivity.
  - intros Hf Hu. rewrite (matches_clauses filter e lo hi) by done.
    f_equal. f_equal. unfold clauses. rewrite Hf, Hu.
    by destruct (isFinalized e).
Qed.

(** ** Proposal: yes, no and the count *)

(** X18: on a Proposal, [yes(uid)] makes [uid] attending and raises the
    count by one unless [uid] was attending already; [no(uid)] makes
    [uid] not attending and lowers the count by one unless [uid] was not
    attending; nobody else's attendance changes, and the later of a [yes]
    and a [no] of the same [uid] wins. *)
Theorem X18_yes_no_count (p : Proposal) (uid other : string) :
  isAttending uid (yes uid p) = true
  ∧ isAttending uid (no uid p) = false
  ∧ yesCount (yes uid p) = (if isAttending uid p then yesCount p else S (yesCount p))
  ∧ yesCount (no uid p) = (if isAttending uid p then yesCount p - 1 else yesCount p)
  ∧ (other ≠ uid →
     isAttending other (yes uid p) = isAttending other p
     ∧ isAttending other (no uid p) = isAttending other p)
  ∧ no uid (yes uid p) = no uid p
  ∧ yes uid (no uid p) = yes uid p.
Proof.
  unfold isAttending, yesCount, yes, no. simpl.
  split.
  { apply bool_decide_eq_true_2, elem_of_union_l. by apply elem_of_singleton. }
  split.
  { apply bool_decide_eq_false_2. rewrite elem_of_difference, elem_of_singleton.
    tauto. }
  split.
  { case_bool_decide as Hin.
    - f_equal. by apply subseteq_union_1_L, singleton_subseteq_l.
    - rewrite size_union by by apply disjoint_singleton_l.
      by rewrite size_singleton. }
  split.
  { case_bool_decide as Hin.
    - rewrite size_difference by by apply singleton_subseteq_l.
      by rewrite size_singleton.
    - f_equal. by apply difference_disjoint_L, disjoint_singleton_r. }
  split.
  { intros Hne. split; apply bool_decide_ext.
    - rewrite elem_of_union, elem_of_singleton. tauto.
    - rewrite elem_of_difference, elem_of_singleton. tauto. }
  split; f_equal; apply set_eq; intros x;
    rewrite ?elem_of_union, ?elem_of_difference, ?elem_of_union, ?elem_of_singleton.
  - tauto.
  - destruct (decide (x = uid)); tauto.
Qed.

(** ** The invitee roster *)

(** X19: [getInvitees()] lists every invitee once.  After [invite(uid)]
    it contains [uid], after [uninvite(uid)] it does not, and the
    membership of every other identifier is as before; inviting twice or
    uninviting twice is the same as once, and neither call touches the
    responses or the proposals. *)
Theorem X19_invite_uninvite (e : Event) (uid other : string) :
  NoDup (getInvitees e)
  ∧ uid ∈ getInvitees (invite uid e)
  ∧ (uid ∉ getInvitees (uninvite uid e))
  ∧ (other ≠ uid →
     (other ∈ getInvitees (invite uid e) ↔ other ∈ getInvitees e)
     ∧ (other ∈ getInvitees (uninvite uid e) ↔ other ∈ getInvitees e))
  ∧ invite uid (invite uid e) = invite uid e
  ∧ uninvite uid (uninvite uid e) = uninvite uid e
  ∧ responses (invite uid e) = responses e
  ∧ responses (uninvite uid e) = responses e
  ∧ proposals (invite uid e) = proposals e
  ∧ proposals (uninvite uid e) = proposals e.
Proof.
  unfold getInvitees. split; [apply NoDup_elements|].
  rewrite !elem_of_elements. simpl.
  rewrite !elem_of_union, !elem_of_difference, !elem_of_singleton.
  split; [by left|]. split; [tauto|]. split; [tauto|].
  split.
  { unfold invite, set_invitees. simpl. f_equal. apply set_eq. intros x.
    rewrite !elem_of_union. tauto. }
  split; [|done].
  unfold uninvite, set_invitees. simpl. f_equal. apply set_eq. intros x.
  rewrite !elem_of_difference. tauto.
Qed.

(** ** The serialized form, again *)

Lemma roundtrip_value e :
  deserialize (serialize e)
  = set_earliest None
      (set_latest None (set_proposals (fmap (M:=option) clearLeader <$> proposals e) e)).
Proof.
  pose proof (proposals_roundtrip e) as Hps.
  unfold deserialize, serialize in *. simpl in *. rewrite Hps.
  unfold set_earliest, set_latest, set_proposals. simpl.
  by rewrite !list_to_set_elements_L.
Qed.

(** X20: the round trip through the serialized form yields the event with
    every leader mark cleared and the earliest/latest caches emptied, and
    nothing else changed; a second round trip changes nothing more. *)
Theorem X20_roundtrip_value (e : Event) :
  deserialize (serialize e)
  = set_earliest None
      (set_latest None (set_proposals (fmap (M:=option) clearLeader <$> proposals e) e))
  ∧ deserialize (serialize (deserialize (serialize e))) = deserialize (serialize e).
Proof.
  split; [apply roundtrip_value|].
  rewrite (roundtrip_value (deserialize (serialize e))), (roundtrip_value e).
  unfold set_earliest, set_latest, set_proposals. simpl. f_equal.
  rewrite <- list_fmap_compose. apply list_fmap_ext.
  by intros _ [p|] _.
Qed.

(** X21: a restored event has lost its caches, and the first
    [proposeDate] on it (the event being open) makes the new proposal both
    the earliest and the latest: both comparison dates are then the new
    date, whatever the dates of the proposals that were restored. *)
Theorem X21_restored_event_caches (e : Event) (t : Moment) :
  isFinalized e = false →
  let r := deserialize (serialize e) in
  let r' := (proposeDate t r).2 in
  earliestComparisonDate r = (Return None, r)
  ∧ latestComparisonDate r = (Return None, r)
  ∧ earliestComparisonDate r' = (Return (Some t), r')
  ∧ latestComparisonDate r' = (Return (Some t), r').
Proof.
  intros Hf r r'.
  assert (Hfr : isFinalized r = false) by exact Hf.
  destruct (proposeDate_open t r Hfr) as (_ & Hps & He & Hl & Hfin & _).
  fold r' in Hps, He, Hl, Hfin.
  assert (Hfr' : isFinalized r' = false).
  { unfold isFinalized. by rewrite Hfin. }
  unfold earliestComparisonDate, latestComparisonDate.
  rewrite Hfr, Hfr', He, Hl, Hps. simpl.
  rewrite ref_date_push. by rewrite bool_decide_eq_true_2.
Qed.

Lemma X21_restored_event_caches_witness :
  let r := deserialize (serialize Scenario.voted) in
  let r' := (proposeDate Scenario.nextMonth r).2 in
  earliestComparisonDate r = (Return None, r)
  ∧ latestComparisonDate r = (Return None, r)
  ∧ earliestComparisonDate r' = (Return (Some Scenario.nextMonth), r')
  ∧ latestComparisonDate r' = (Return (Some Scenario.nextMonth), r').
Proof.
  apply (X21_restored_event_caches Scenario.voted Scenario.nextMonth).
  by vm_compute.
Defined.

(** ** Attendance and responses *)

Lemma accepted_after_accept e uid i j q :
  slot (proposals (acceptProposal uid i e).2) j = Some q →
  ∃ p, slot (proposals e) j = Some p ∧ accepted q ⊆ {[uid]} ∪ accepted p.
Proof.
  rewrite acceptProposal_unfold. simpl.
  destruct (slot (proposals e) i) as [p0|] eqn:Hp0; simpl.
  - intros (p & Hp & ->)%accepted_after_remark. simpl in Hp.
    rewrite (slot_insert_live _ i j p0) in Hp by done.
    case_bool_decide as Hj.
    + subst j. injection Hp as <-. exists p0. split; [done|]. reflexivity.
    + exists p. split; [done|]. apply union_subseteq_r.
  - intros Hq. exists q. split; [done|]. apply union_subseteq_r.
Qed.

Lemma accepted_after_reject e uid i j q :
  slot (proposals (rejectProposal uid i e).2) j = Some q →
  ∃ p, slot (proposals e) j = Some p ∧ accepted q ⊆ accepted p.
Proof.
  rewrite rejectProposal_unfold. simpl.
  destruct (slot (proposals e) i) as [p0|] eqn:Hp0; simpl.
  - intros (p & Hp & ->)%accepted_after_remark. simpl in Hp.
    rewrite (slot_insert_live _ i j p0) in Hp by done.
    case_bool_decide as Hj.
    + subst j. injection Hp as <-. exists p0. split; [done|].
      simpl. apply subseteq_difference_l. reflexivity.
    + exists p. split; [done|]. reflexivity.
  - intros Hq. exists q. split; [done|]. reflexivity.
Qed.

Lemma exec_accept_state uid i e :
  (exec (OpAccept uid i) e).2 = (acceptProposal uid i e).2.
Proof.
  simpl. unfold mbind, M_bind, bind.
  by destruct (acceptProposal uid i e) as [[[]|err] e'].
Qed.

Lemma exec_reject_state uid i e :
  (exec (OpReject uid i) e).2 = (rejectProposal uid i e).2.
Proof.
  simpl. unfold mbind, M_bind, bind.
  by destruct (rejectProposal uid i e) as [[[]|err] e'].
Qed.

Lemma attendees_responded_exec op e :
  event_call op = true → attendees_responded e →
  attendees_responded (exec op e).2.
Proof.
  intros Hop Hinv.
  destruct op as [v|t|i|uid|uid|uid i|uid i|uid|i| |i uid|i uid];
    try discriminate Hop.
  - exact Hinv.
  - simpl. unfold mbind, M_bind, bind.
    destruct (isFinalized e) eqn:Hf.
    + by rewrite proposeDate_finalized.
    + destruct (proposeDate_open t e Hf) as (Ho & Hps & _ & _ & _ & _ & Hr).
      destruct (proposeDate t e) as [o e'] eqn:E. simpl in *. subst o. simpl.
      intros j p. rewrite Hps, Hr, slot_app_new. case_bool_decide.
      * intros [= <-]. simpl. apply empty_subseteq.
      * apply Hinv.
  - simpl. intros j p. rewrite proposals_unpropose, responses_unpropose.
    rewrite slot_delete_slot. case_bool_decide; [done|]. apply Hinv.
  - exact Hinv.
  - exact Hinv.
  - rewrite exec_accept_state. intros j q Hq.
    destruct (acceptProposal_rosters e uid i) as [_ ->].
    apply accepted_after_accept in Hq as (p & Hp & Hsub).
    etrans; [exact Hsub|]. apply union_mono_l. by eapply Hinv.
  - rewrite exec_reject_state. intros j q Hq.
    destruct (rejectProposal_rosters e uid i) as [_ ->].
    apply accepted_after_reject in Hq as (p & Hp & Hsub).
    etrans; [exact Hsub|]. etrans; [by eapply Hinv|]. apply union_subseteq_r.
  - simpl. intros j p Hp. etrans; [by eapply Hinv|]. apply union_subseteq_r.
  - simpl. unfold mbind, M_bind, bind. rewrite finalize_cases.
    destruct (slot (proposals e) i); simpl; [|exact Hinv].
    destruct (isFinalized e); simpl; exact Hinv.
  - exact Hinv.
Qed.

Lemma attendees_responded_after ops :
  ∀ e, forallb event_call ops = true → attendees_responded e →
       attendees_responded (after ops e).
Proof.
  induction ops as [|op rest IH]; intros e Hops Hinv; [done|].
  simpl in Hops. apply andb_true_iff in Hops as [Hop Hrest].
  rewrite after_cons. apply IH; [done|]. by apply attendees_responded_exec.
Qed.

(** X22: on an event built from [new Event] by calls of the event's own
    methods (no direct [yes] or [no] on a proposal), everybody who is
    attending a live proposal is in [responses]. *)
Theorem X22_attendees_have_responded (eid ename : string) (ops : list Op) :
  forallb event_call ops = true →
  attendees_responded (after ops (EventM.new eid ename)).
Proof.
  intros Hops. apply attendees_responded_after; [done|].
  intros j p. by destruct j.
Qed.

Lemma X22_attendees_have_responded_witness :
  attendees_responded
    (after [OpProposeDate Scenario.tomorrow; OpAccept "frey" 0;
            OpUninvite "frey"; OpReject "fenris" 0]
           (EventM.new "AAA" "Party")).
Proof.
  apply (X22_attendees_have_responded "AAA" "Party"
           [OpProposeDate Scenario.tomorrow; OpAccept "frey" 0;
            OpUninvite "frey"; OpReject "fenris" 0]).
  reflexivity.
Defined.

(** The direct [yes] of the tests does not go through [responses]. *)
Example direct_yes_skips_responses :
  let e := after [OpFinalize 0; OpYes 0 "reostra"] Scenario.proposed in
  (isAttending "reostra" <$> slot (proposals e) 0) = Some true
  ∧ responses e = ∅.
Proof. by vm_compute. Qed.

(** ** The leader marker over a sequence of calls *)

Lemma max_list_snoc l n : max_list (l ++ [n]) = max_list l `max` n.
Proof. induction l as [|x l IH]; simpl; [lia|]. rewrite IH. lia. Qed.

Lemma leaders_marked_same e e' :
  proposals e' = proposals e → leaders_marked e → leaders_marked e'.
Proof.
  intros Hps H. unfold leaders_marked, max_yes, live_proposals in *.
  by rewrite Hps.
Qed.

Lemma marks_kept_by_accept e uid i :
  ¬ has_hole e → leaders_marked e →
  ¬ has_hole (acceptProposal uid i e).2 ∧ leaders_marked (acceptProposal uid i e).2.
Proof.
  intros Hh Hm. rewrite acceptProposal_unfold. simpl.
  destruct (slot (proposals e) i) as [p|] eqn:Hp; [|done].
  set (E0 := set_proposals _ _).
  assert (Hh0 : ¬ has_hole E0).
  { unfold has_hole, E0. simpl. by rewrite hole_insert_live. }
  split.
  - rewrite (remarkLeader_no_hole E0 Hh0). unfold has_hole. simpl.
    by rewrite hole_fmap.
  - apply (remarkLeader_marks E0). by rewrite (remarkLeader_no_hole E0 Hh0).
Qed.

Lemma marks_kept_by_reject e uid i :
  ¬ has_hole e → leaders_marked e →
  ¬ has_hole (rejectProposal uid i e).2 ∧ leaders_marked (rejectProposal uid i e).2.
Proof.
  intros Hh Hm. rewrite rejectProposal_unfold. simpl.
  destruct (slot (proposals e) i) as [p|] eqn:Hp; [|done].
  set (E0 := set_proposals _ _).
  assert (Hh0 : ¬ has_hole E0).
  { unfold has_hole, E0. simpl. by rewrite hole_insert_live. }
  split.
  - rewrite (remarkLeader_no_hole E0 Hh0). unfold has_hole. simpl.
    by rewrite hole_fmap.
  - apply (remarkLeader_marks E0). by rewrite (remarkLeader_no_hole E0 Hh0).
Qed.

Lemma marks_kept_by_proposeDate e t :
  ¬ has_hole e → leaders_marked e →
  ¬ has_hole (proposeDate t e).2 ∧ leaders_marked (proposeDate t e).2.
Proof.
  intros Hh Hm. destruct (isFinalized e) eqn:Hf.
  { by rewrite proposeDate_finalized. }
  destruct (proposeDate_open t e Hf) as (_ & Hps & _).
  assert (Hmax : max_yes (proposeDate t e).2 = max_yes e).
  { unfold max_yes, live_proposals. rewrite Hps, omap_app, fmap_app.
    change (yesCount <$> omap (λ o, o) [Some (ProposalM.new t)])
      with [size (∅ : gset string)].
    rewrite max_list_snoc, size_empty. lia. }
  split.
  - unfold has_hole. rewrite Hps, elem_of_app, list_elem_of_singleton.
    intros [?|?]; [by apply Hh|done].
  - intros j p. rewrite Hmax, Hps, slot_app_new. case_bool_decide.
    + intros [= <-].
      change (yesCount (ProposalM.new t)) with (size (∅ : gset string)).
      rewrite size_empty. split; [done|lia].
    + apply Hm.
Qed.

Lemma marks_kept_by_exec op e :
  marking_call op = true → ¬ has_hole e → leaders_marked e →
  ¬ has_hole (exec op e).2 ∧ leaders_marked (exec op e).2.
Proof.
  intros Hop Hh Hm.
  destruct op as [v|t|i|uid|uid|uid i|uid i|uid|i| |i uid|i uid];
    try discriminate Hop.
  - done.
  - pose proof (marks_kept_by_proposeDate e t Hh Hm) as H.
    simpl. unfold mbind, M_bind, bind.
    by destruct (proposeDate t e) as [[k|err] e'].
  - done.
  - done.
  - rewrite exec_accept_state. by apply marks_kept_by_accept.
  - rewrite exec_reject_state. by apply marks_kept_by_reject.
  - done.
  - simpl. unfold mbind, M_bind, bind. rewrite finalize_cases.
    destruct (slot (proposals e) i); simpl; [|done].
    by destruct (isFinalized e).
  - done.
Qed.

Lemma marks_kept_after ops :
  ∀ e, forallb marking_call ops = true → ¬ has_hole e → leaders_marked e →
       ¬ has_hole (after ops e) ∧ leaders_marked (after ops e).
Proof.
  induction ops as [|op rest IH]; intros e Hops Hh Hm; [done|].
  simpl in Hops. apply andb_true_iff in Hops as [Hop Hrest].
  rewrite after_cons.
  destruct (marks_kept_by_exec op e Hop Hh Hm) as [Hh' Hm'].
  by apply IH.
Qed.

(** X23: on an event built from [new Event] by any sequence of calls
    without [unpropose] and without direct [yes] or [no] (dates proposed,
    votes cast on valid or invalid indices, invitations, finalization),
    no slot is removed and at every moment a live proposal is marked
    leading if and only if it has the most votes of the live proposals
    and these are at least two. *)
Theorem X23_leaders_over_a_sequence (eid ename : string) (ops : list Op) :
  forallb marking_call ops = true →
  ¬ has_hole (after ops (EventM.new eid ename))
  ∧ leaders_marked (after ops (EventM.new eid ename)).
Proof.
  intros Hops. apply marks_kept_after; [done| |].
  - unfold has_hole. simpl. apply not_elem_of_nil.
  - intros j p. by destruct j.
Qed.

Lemma X23_leaders_over_a_sequence_witness :
  let ops := [OpProposeDate Scenario.tomorrow;
              OpInvite "frey"; OpInvite "fenris"; OpInvite "reostra";
              OpProposeDate Scenario.nextWeek; OpProposeDate Scenario.nextMonth;
              OpAccept "frey" 0; OpAccept "fenris" 0; OpAccept "fenris" 5;
              OpAccept "reostra" 0; OpReject "reostra" 1; OpFinalize 2] in
  ¬ has_hole (after ops (EventM.new "AAA" "Party"))
  ∧ leaders_marked (after ops (EventM.new "AAA" "Party")).
Proof.
  intros ops. apply (X23_leaders_over_a_sequence "AAA" "Party" ops).
  reflexivity.
Defined.

(** ** The length of the array *)

Lemma length_after ops :
  ∀ e, length (proposals (after ops e))
       = length (proposals e) + length (returned_indices (outcomes ops e)).
Proof.
  induction ops as [|op rest IH]; intros e.
  { unfold after, outcomes. simpl. lia. }
  rewrite after_cons, outcomes_cons, IH.
  pose proof (effect_length _ _ _ (effect_exec op e)) as Hl.
  set (n := length (returned_indices (outcomes rest (exec op e).2))).
  destruct (exec op e).1 as [[|k]|].
  - change (length (returned_indices (Return VUndefined :: ?os)))
      with (length (returned_indices os)). fold n. lia.
  - change (length (returned_indices (Return (VIndex k) :: ?os)))
      with (S (length (returned_indices os))). fold n. lia.
  - change (length (returned_indices (Throw err :: ?os)))
      with (length (returned_indices os)). fold n. lia.
Qed.

(** X24: the array of proposals never shrinks: after any sequence of
    calls its length is the length before plus the number of
    [proposeDate] calls that returned, removals included; every key is
    below it. *)
Theorem X24_array_length (e : Event) (ops : list Op) :
  length (proposals (after ops e))
  = length (proposals e) + length (returned_indices (outcomes ops e))
  ∧ ∀ k, k ∈ proposalKeys (after ops e) → k < length (proposals (after ops e)).
Proof.
  split; [apply length_after|].
  intros k. rewrite proposalKeys_filter, list_elem_of_filter, elem_of_seq. lia.
Qed.
